(** * Audio journal live recorder: segmenting, transcription pipeline, assembly

    A shallow embedding of [record-live-v2.py] (class [LiveRecorder]) and the
    properties of its segment boundary and transcription pipeline.

    Conventions of the embedding:
    - a Python [str] is a list of Unicode code points ([N]); [len], [find],
      slicing, [split], [strip] and [join] work on code points as in CPython;
    - session-relative times (Python floats obtained from [time.time()]) are
      taken as exact rationals ([Q]); rounding is not modelled;
    - the recorder object is a record threaded explicitly through the methods;
    - sox, ffmpeg, whisper and the file system are not modelled: what the
      recorder observes of them during one call is an input ([World]). *)

From Stdlib Require Import List Bool Arith ZArith NArith QArith Qround Qminmax.
From Stdlib Require Import Lia Lqa.
From Stdlib Require Import Permutation Sorted.
From Stdlib Require Ascii String DecimalString.
Import ListNotations.
Import String.StringSyntax.
Delimit Scope string_scope with string.
Close Scope Q_scope.

Set Implicit Arguments.

(** ** Python strings *)

Module PyStr.

Definition codepoint := N.
Definition str := list codepoint.

(** A literal given in ASCII. *)
Definition lit (s : String.string) : str :=
  map Ascii.N_of_ascii (String.list_ascii_of_string s).
Arguments lit s%_string.

Definition SPACE : codepoint := 32%N.
Definition NEWLINE : codepoint := 10%N.

(** [Py_UNICODE_ISSPACE]: the characters [str.split()] and [str.strip()]
    (both without argument) treat as whitespace. *)
Definition isspace (c : codepoint) : bool :=
  ((9 <=? c) && (c <=? 13) || (28 <=? c) && (c <=? 32)
   || (c =? 133) || (c =? 160) || (c =? 5760)
   || (8192 <=? c) && (c <=? 8202)
   || (c =? 8232) || (c =? 8233) || (c =? 8239) || (c =? 8287)
   || (c =? 12288))%N.

Definition eqb (a b : str) : bool :=
  if list_eq_dec N.eq_dec a b then true else false.

(** [s.lstrip()] *)
Fixpoint lstrip (s : str) : str :=
  match s with
  | c :: r => if isspace c then lstrip r else s
  | [] => []
  end.

(** [s.rstrip()] *)
Definition rstrip (s : str) : str := rev (lstrip (rev s)).

(** [s.strip()] *)
Definition strip (s : str) : str := rstrip (lstrip s).

(** [s.split()]: the maximal runs of non-whitespace characters, in order.
    [cur] is the word being read. *)
Fixpoint split_from (cur : str) (s : str) : list str :=
  match s with
  | [] => match cur with [] => [] | _ => [cur] end
  | c :: r =>
      if isspace c
      then match cur with
           | [] => split_from [] r
           | _ => cur :: split_from [] r
           end
      else split_from (cur ++ [c]) r
  end.

Definition split (s : str) : list str := split_from [] s.

(** [sep.join(parts)] *)
Fixpoint join (sep : str) (parts : list str) : str :=
  match parts with
  | [] => []
  | [p] => p
  | p :: ps => p ++ sep ++ join sep ps
  end.

(** [s.startswith(sub)] *)
Fixpoint startswith (s sub : str) : bool :=
  match sub, s with
  | [], _ => true
  | _ :: _, [] => false
  | a :: sub', b :: s' => (a =? b)%N && startswith s' sub'
  end.

(** [s.find(sub)], searching from offset [i] of the original string: the
    lowest index at which [sub] occurs, [-1] if there is none. *)
Fixpoint find_from (i : Z) (s sub : str) : Z :=
  if startswith s sub then i
  else match s with
       | [] => (-1)%Z
       | _ :: r => find_from (i + 1) r sub
       end.

Definition find (s sub : str) : Z := find_from 0 s sub.

(** [sub in s] *)
Definition contains (s sub : str) : bool := (0 <=? find s sub)%Z.

(** [s[k:]] *)
Definition slice_from (s : str) (k : Z) : str :=
  if (k <? 0)%Z
  then skipn (length s - Z.to_nat (- k)) s
  else skipn (Z.to_nat k) s.

(** [len(s)] *)
Definition len (s : str) : Z := Z.of_nat (length s).

End PyStr.
Import PyStr.

(** ** Overlap removal (the body of the [if len(prev_text) > 20] block and
    its guard, lines 203-212 of [transcribe_segment]) *)

Definition remove_overlap (prev_text full_text : str) : str :=
  if (len prev_text >? 20)%Z then
    let words_to_check := firstn 5 (split full_text) in
    match words_to_check with
    | [] => full_text
    | _ =>
        let check_phrase := join [SPACE] words_to_check in
        if contains prev_text check_phrase then
          let idx := find full_text check_phrase in
          if (idx >? 0)%Z
          then strip (slice_from full_text (idx + len check_phrase))
          else full_text
        else full_text
    end
  else full_text.

(** ** Times *)

Definition Qgt_bool (a b : Q) : bool := negb (Qle_bool a b).

(** [max(a, b)]: the first argument unless the second is strictly greater. *)
Definition py_max (a b : Q) : Q := if Qgt_bool b a then b else a.

(** [x // y] for [y > 0] (an integral value) and [x % y] for [y > 0]. *)
Definition py_floordiv (x y : Q) : Z := Qfloor (x / y).
Definition py_mod (x y : Q) : Q := x - y * inject_Z (Qfloor (x / y)).

(** [int(x)]: truncation toward zero. *)
Definition py_int (x : Q) : Z := Z.quot (Qnum x) (Zpos (Qden x)).

(** [str(n)] for a natural number. *)
Definition decimal (n : N) : str :=
  map Ascii.N_of_ascii
      (String.list_ascii_of_string
         (DecimalString.NilZero.string_of_uint (N.to_uint n))).

(** [f"{n:02d}"]: sign, then zeros up to a total width of 2, then digits. *)
Definition format_02d (n : Z) : str :=
  let sign := if (n <? 0)%Z then lit "-" else [] in
  let digits := decimal (Z.abs_N n) in
  sign ++ repeat 48%N (2 - length sign - length digits) ++ digits.

(** [format_time]: seconds to MM:SS. *)
Definition format_time (seconds : Q) : str :=
  let mins := py_int (inject_Z (py_floordiv seconds 60)) in
  let secs := py_int (py_mod seconds 60) in
  format_02d mins ++ lit ":" ++ format_02d secs.

(** ** Python dictionaries keyed by segment index

    Insertion-ordered, as Python's [dict]: writing an existing key keeps its
    place, writing a new key appends. *)

Module Dict.
Section Dict.
Variable V : Type.

Definition dict := list (nat * V).

Definition empty : dict := [].

(** [d.get(k)] *)
Fixpoint get (d : dict) (k : nat) : option V :=
  match d with
  | [] => None
  | (k', v) :: r => if Nat.eqb k k' then Some v else get r k
  end.

(** [k in d] *)
Definition mem (d : dict) (k : nat) : bool :=
  match get d k with Some _ => true | None => false end.

(** [d[k] = v] *)
Fixpoint set (d : dict) (k : nat) (v : V) : dict :=
  match d with
  | [] => [(k, v)]
  | (k', v') :: r =>
      if Nat.eqb k k' then (k, v) :: r else (k', v') :: set r k v
  end.

(** [d.keys()] and [d.values()], in insertion order *)
Definition keys (d : dict) : list nat := map fst d.
Definition values (d : dict) : list V := map snd d.

(** [bool(d)] *)
Definition truthy (d : dict) : bool :=
  match d with [] => false | _ => true end.
End Dict.
End Dict.

(** ** Segments, results, the recorder *)

Inductive SegmentType := paragraph | sentence.

Record Segment := {
  seg_start : Q;          (* 'start' *)
  seg_end : Q;            (* 'end' *)
  seg_type : SegmentType; (* 'type' *)
  seg_index : nat;        (* 'index' *)
  seg_actual_start : Q    (* 'actual_start' *)
}.

Record Result := {
  res_text : str;         (* 'text' *)
  res_start : Q;          (* 'start' *)
  res_end : Q;            (* 'end' *)
  res_type : SegmentType  (* 'type' *)
}.

(** What the recorder prints. *)
Inductive Message :=
| MsgParagraph (at_time : str)
| MsgSentence (at_time : str)
| MsgFinal (at_time : str) (text : str)
| MsgTranscriptionError
| MsgWorkerError
| MsgStopping
| MsgFinishing
| MsgSaved
| MsgNoSegments.

Record LiveRecorder := {
  recording : bool;
  segments : list Segment;
  transcription_queue : list Segment;   (* FIFO: [put] at the end *)
  results : Dict.dict Result;
  last_segment_end : Q;
  overlap_seconds : Q;
  previews : list Segment;              (* preview threads started *)
  console : list Message
}.

(** [__init__] followed by [start_recording]. *)
Definition init : LiveRecorder := {|
  recording := false;
  segments := [];
  transcription_queue := [];
  results := Dict.empty Result;
  last_segment_end := 0;
  overlap_seconds := 1;
  previews := [];
  console := []
|}.

Definition set_recording (b : bool) (self : LiveRecorder) : LiveRecorder := {|
  recording := b;
  segments := segments self;
  transcription_queue := transcription_queue self;
  results := results self;
  last_segment_end := last_segment_end self;
  overlap_seconds := overlap_seconds self;
  previews := previews self;
  console := console self
|}.

Definition print (m : Message) (self : LiveRecorder) : LiveRecorder := {|
  recording := recording self;
  segments := segments self;
  transcription_queue := transcription_queue self;
  results := results self;
  last_segment_end := last_segment_end self;
  overlap_seconds := overlap_seconds self;
  previews := previews self;
  console := console self ++ [m]
|}.

Definition set_queue (q : list Segment) (self : LiveRecorder) : LiveRecorder := {|
  recording := recording self;
  segments := segments self;
  transcription_queue := q;
  results := results self;
  last_segment_end := last_segment_end self;
  overlap_seconds := overlap_seconds self;
  previews := previews self;
  console := console self
|}.

Definition set_result (k : nat) (r : Result) (self : LiveRecorder)
  : LiveRecorder := {|
  recording := recording self;
  segments := segments self;
  transcription_queue := transcription_queue self;
  results := Dict.set (results self) k r;
  last_segment_end := last_segment_end self;
  overlap_seconds := overlap_seconds self;
  previews := previews self;
  console := console self
|}.

Definition start_recording (self : LiveRecorder) : LiveRecorder :=
  set_recording true self.

(** ** The segmenter: [mark_segment]

    [current_time] is the clock reading [time.time() - self.start_time]. *)
Definition mark_segment (self : LiveRecorder) (current_time : Q)
    (segment_type : SegmentType) : LiveRecorder * option Segment :=
  if negb (recording self) then (self, None)
  else if Qgt_bool current_time (last_segment_end self + (1 # 2)) then
    let segment_start :=
      py_max 0 (last_segment_end self - overlap_seconds self) in
    let segment := {|
      seg_start := segment_start;
      seg_end := current_time;
      seg_type := segment_type;
      seg_index := length (segments self);
      seg_actual_start := last_segment_end self
    |} in
    ({| recording := recording self;
        segments := segments self ++ [segment];
        transcription_queue := transcription_queue self ++ [segment];
        results := results self;
        last_segment_end := current_time;
        overlap_seconds := overlap_seconds self;
        previews := previews self ++ [segment];
        console :=
          console self ++
          [match segment_type with
           | paragraph => MsgParagraph (format_time current_time)
           | sentence => MsgSentence (format_time current_time)
           end]
     |}, Some segment)
  else (self, None).

(** ** The outside world during one call of [transcribe_segment] *)

(** The outcome of a Python call: a value, or an exception that leaves it. *)
Inductive PyResult (A : Type) :=
| Returned (a : A)
| Raised.
Arguments Raised {A}.

(** [extract_segment_audio]: ffmpeg could not be started (the exception
    leaves the method), ran and left no output file, or left the file. *)
Inductive Clip := ExtractRaises | ExtractNoFile | ExtractFile.

(** The whisper run and the JSON file it leaves: the process could not be
    started, no JSON file, a JSON file that [json.load] or the following
    [.get('text', '').strip()] rejects, or a JSON file whose
    [data.get('text', '')] is [raw]. *)
Inductive Whisper :=
| WhisperRaises
| JsonAbsent
| JsonUnreadable
| JsonText (raw : str).

Record World := {
  audio_exists : bool;     (* segment_<index>.wav already there *)
  extraction : Clip;
  whisper : Whisper
}.

Definition extract_segment_audio (w : World) : PyResult (option unit) :=
  match extraction w with
  | ExtractRaises => Raised
  | ExtractNoFile => Returned None
  | ExtractFile => Returned (Some tt)
  end.

(** ** [transcribe_segment] *)

Definition transcribe_segment (self : LiveRecorder) (segment : Segment)
    (w : World) : LiveRecorder * PyResult (option str) :=
  let audio_file :=
    if audio_exists w then Returned (Some tt) else extract_segment_audio w in
  match audio_file with
  | Raised => (self, Raised)
  | Returned None => (self, Returned None)
  | Returned (Some _) =>
      match whisper w with
      | WhisperRaises => (print MsgTranscriptionError self, Returned None)
      | JsonUnreadable => (print MsgTranscriptionError self, Returned None)
      | JsonAbsent => (self, Returned None)
      | JsonText raw =>
          let full_text := strip raw in
          let full_text :=
            if (0 <? seg_index segment)
               && Dict.mem (results self) (seg_index segment - 1)
            then
              match Dict.get (results self) (seg_index segment - 1) with
              | Some prev => remove_overlap (res_text prev) full_text
              | None => full_text
              end
            else full_text in
          (self, Returned (Some full_text))
      end
  end.

(** [if text:] on the value [transcribe_segment] returned. *)
Definition truthy_text (text : option str) : bool :=
  match text with
  | Some (_ :: _) => true
  | _ => false
  end.

(** ** The worker: what follows [queue.get] in one round of the loop of
    [transcription_worker], then the round itself. *)

Definition worker_process (self : LiveRecorder) (segment : Segment)
    (w : World) : LiveRecorder :=
  match transcribe_segment self segment w with
  | (self', Raised) => print MsgWorkerError self'
  | (self', Returned text) =>
      if truthy_text text then
        match text with
        | Some text =>
            print (MsgFinal (format_time (seg_actual_start segment)) text)
              (set_result (seg_index segment)
                 {| res_text := text;
                    res_start := seg_actual_start segment;
                    res_end := seg_end segment;
                    res_type := seg_type segment |} self')
        | None => self'
        end
      else self'
  end.

Definition worker_round (self : LiveRecorder) (w : World) : LiveRecorder :=
  match transcription_queue self with
  | [] => self                              (* queue.Empty: continue *)
  | segment :: rest => worker_process (set_queue rest self) segment w
  end.

(** ** [stop_recording], up to the wait for the queue *)

Definition stop_recording (self : LiveRecorder) (current_time : Q)
  : LiveRecorder :=
  if negb (recording self) then self
  else
    let self := print MsgStopping self in
    let self := fst (mark_segment self current_time paragraph) in
    let self := set_recording false self in
    print MsgFinishing self.

(** ** [save_results]: the transcript and its figures *)

Fixpoint insert_sorted (k : nat) (l : list nat) : list nat :=
  match l with
  | [] => [k]
  | x :: r => if k <=? x then k :: l else x :: insert_sorted k r
  end.

(** [sorted(keys)] *)
Definition sorted (l : list nat) : list nat := fold_right insert_sorted [] l.

(** The parts one result adds to [transcript_parts]. *)
Definition result_parts (result : Result) : list str :=
  let time_str := lit "[" ++ format_time (res_start result) ++ lit "]" in
  (time_str ++ lit " " ++ res_text result)
  :: match res_type result with
     | paragraph => [[]]
     | sentence => []
     end.

Definition transcript_parts (results : Dict.dict Result) : list str :=
  flat_map
    (fun i =>
       match Dict.get results i with
       | Some result => result_parts result
       | None => []
       end)
    (sorted (Dict.keys results)).

Definition full_transcript (results : Dict.dict Result) : str :=
  join [NEWLINE] (transcript_parts results).

Record Entry := {
  entry_transcript : str;
  entry_words : nat;
  entry_segments : nat;
  entry_paragraphs : nat
}.

Definition save_results (self : LiveRecorder) : LiveRecorder * Entry :=
  (print MsgSaved self,
   {| entry_transcript := full_transcript (results self);
      entry_words :=
        list_sum (map (fun r => length (split (res_text r)))
                      (Dict.values (results self)));
      entry_segments := length (results self);
      entry_paragraphs :=
        length (filter (fun r => match res_type r with
                                 | paragraph => true
                                 | sentence => false
                                 end)
                       (Dict.values (results self))) |}).

(** ** The end of [run], after [worker.join()] *)

Definition run_save (self : LiveRecorder) : LiveRecorder * option Entry :=
  if Dict.truthy (results self)
  then let (self', e) := save_results self in (self', Some e)
  else (print MsgNoSegments self, None).

(** ** A sequence of marks on the main thread *)

Definition Mark := (Q * SegmentType)%type.

Definition mark_step (self : LiveRecorder) (m : Mark) : LiveRecorder :=
  fst (mark_segment self (fst m) (snd m)).

Definition run_marks (self : LiveRecorder) (marks : list Mark)
  : LiveRecorder :=
  fold_left mark_step marks self.

Definition accepted (self : LiveRecorder) (m : Mark) : bool :=
  match snd (mark_segment self (fst m) (snd m)) with
  | Some _ => true
  | None => false
  end.

(** The number of marks of the sequence that produced a segment. *)
Fixpoint count_accepted (self : LiveRecorder) (marks : list Mark) : nat :=
  match marks with
  | [] => 0
  | m :: rest =>
      (if accepted self m then 1 else 0)
      + count_accepted (mark_step self m) rest
  end.

(** ** The main thread and the worker thread, interleaved

    The main thread marks segments while it monitors the keyboard, then runs
    [stop_recording]: the final mark, then [self.recording = False].  The
    worker runs the loop of [transcription_worker]; the two reads of its
    condition [self.recording or not self.transcription_queue.empty()] are
    separate steps, as are [queue.get] and the processing of the segment it
    returned.  [taken] and [completed] record the segments [queue.get]
    returned and those whose processing ended. *)

Inductive WorkerPc :=
| AtWhile                          (* about to read [self.recording] *)
| AtQueueEmpty                     (* it was False: about to read [empty()] *)
| AtGet                            (* in the body, at [queue.get(timeout=1)] *)
| Transcribing (segment : Segment) (* between [get] and the end of the round *)
| Finished.                        (* the loop was left *)

Inductive MainPc :=
| Monitoring                       (* in [monitor_input] *)
| Stopping                         (* in [stop_recording], final mark done *)
| Stopped.                         (* [self.recording = False] done *)

Record System := {
  rec : LiveRecorder;
  worker : WorkerPc;
  main : MainPc;
  taken : list Segment;
  completed : list Segment
}.

Definition initial : System := {|
  rec := start_recording init;
  worker := AtWhile;
  main := Monitoring;
  taken := [];
  completed := []
|}.

Definition main_mark (t : Q) (ty : SegmentType) (s : System) : System := {|
  rec := fst (mark_segment (rec s) t ty);
  worker := worker s;
  main := main s;
  taken := taken s;
  completed := completed s
|}.

Definition main_stop_mark (t : Q) (s : System) : System := {|
  rec := fst (mark_segment (print MsgStopping (rec s)) t paragraph);
  worker := worker s;
  main := Stopping;
  taken := taken s;
  completed := completed s
|}.

Definition main_stop_flag (s : System) : System := {|
  rec := print MsgFinishing (set_recording false (rec s));
  worker := worker s;
  main := Stopped;
  taken := taken s;
  completed := completed s
|}.

Definition at_pc (pc : WorkerPc) (s : System) : System := {|
  rec := rec s;
  worker := pc;
  main := main s;
  taken := taken s;
  completed := completed s
|}.

Definition worker_step (w : World) (s : System) : System :=
  match worker s with
  | AtWhile =>
      if recording (rec s) then at_pc AtGet s else at_pc AtQueueEmpty s
  | AtQueueEmpty =>
      match transcription_queue (rec s) with
      | [] => at_pc Finished s
      | _ :: _ => at_pc AtGet s
      end
  | AtGet =>
      match transcription_queue (rec s) with
      | [] => at_pc AtWhile s            (* queue.Empty: continue *)
      | segment :: rest =>
          {| rec := set_queue rest (rec s);
             worker := Transcribing segment;
             main := main s;
             taken := taken s ++ [segment];
             completed := completed s |}
      end
  | Transcribing segment =>
      {| rec := worker_process (rec s) segment w;
         worker := AtWhile;
         main := main s;
         taken := taken s;
         completed := completed s ++ [segment] |}
  | Finished => s
  end.

Inductive step : System -> System -> Prop :=
| step_mark s t ty :
    main s = Monitoring -> step s (main_mark t ty s)
| step_stop_mark s t :
    main s = Monitoring -> step s (main_stop_mark t s)
| step_stop_flag s :
    main s = Stopping -> step s (main_stop_flag s)
| step_worker s w :
    worker s <> Finished -> step s (worker_step w s).

Inductive reachable : System -> Prop :=
| reach_initial : reachable initial
| reach_step s s' : reachable s -> step s s' -> reachable s'.

(** The worker running alone, one world per step. *)
Definition transcription_worker (ws : list World) (s : System) : System :=
  fold_left (fun s w => worker_step w s) ws s.

(** ** Notions the properties are stated with *)

(** [sub] occurs in [s] at offset [i]. *)
Definition occurs_at (i : nat) (sub s : str) : Prop :=
  exists pre post, s = pre ++ sub ++ post /\ length pre = i.

Definition occurs (sub s : str) : Prop := exists i, occurs_at i sub s.

(** [i] is the offset of the first occurrence of [sub] in [s]. *)
Definition first_at (i : nat) (sub s : str) : Prop :=
  occurs_at i sub s /\ forall j, j < i -> ~ occurs_at j sub s.

(** The probe phrase of a text: its first five words, single-spaced. *)
Definition probe (text : str) : str := join [SPACE] (firstn 5 (split text)).

(** [find] with the offset as a natural number, [None] for [-1]. *)
Fixpoint find_nat (s sub : str) : option nat :=
  if startswith s sub then Some 0
  else match s with
       | [] => None
       | _ :: r => option_map S (find_nat r sub)
       end.

(** The text the overlap step would yield if it looked at nothing but the
    probe phrase: cut after the probe when the probe occurs in the previous
    text and its first offset in the new text is positive. *)
Definition claimed_overlap (prev_text full_text : str) : str :=
  if contains prev_text (probe full_text)
     && (find full_text (probe full_text) >? 0)%Z
  then strip (slice_from full_text
                (find full_text (probe full_text) + len (probe full_text)))
  else full_text.

(** The overlap is cut at offset [i] of [full_text]: the probe occurs in the
    previous text and first occurs in [full_text] at [i > 0]. *)
Definition overlap_found (prev_text full_text : str) (i : nat) : Prop :=
  occurs (probe full_text) prev_text
  /\ first_at i (probe full_text) full_text
  /\ 0 < i.

(** The audio clip of the segment is at hand. *)
Definition audio_available (w : World) : Prop :=
  audio_exists w = true \/ extraction w = ExtractFile.

(** A word: non-empty, without whitespace.  A blank: whitespace only. *)
Definition word (w : str) : Prop :=
  w <> [] /\ Forall (fun c => isspace c = false) w.
Definition blank (s : str) : Prop := Forall (fun c => isspace c = true) s.

(** A text that starts with its first five words (with all its words, when
    it has fewer), each separated from the next by one space. *)
Definition single_spaced (text : str) : Prop :=
  exists ws rest,
    Forall word ws
    /\ text = join [SPACE] ws ++ rest
    /\ ((length ws = 5
         /\ (rest = [] \/ exists c r, rest = c :: r /\ isspace c = true))
        \/ (length ws < 5 /\ blank rest)).

(** ** Concrete sessions used in examples *)

Definition result_at (text : str) (start stop : Q) (ty : SegmentType)
  : Result :=
  {| res_text := text; res_start := start; res_end := stop; res_type := ty |}.

Definition segment_1 : Segment :=
  {| seg_start := 2; seg_end := 6; seg_type := sentence; seg_index := 1;
     seg_actual_start := 3 |}.

Definition world_text (raw : str) : World :=
  {| audio_exists := true; extraction := ExtractFile;
     whisper := JsonText raw |}.

(** A recorder holding one final result, for segment 0. *)
Definition recorder_with_first (text : str) : LiveRecorder :=
  set_result 0 (result_at text 0 3 paragraph) (start_recording init).

Definition doubled_start : str := lit "a  b c d e a b c d e tail".

Definition lazy_dog : str := lit "brown fox jumps over the lazy dog".
Definition quick_prev : str := lit "the quick brown fox jumps over the".

(** ** Invariants of the recorder *)

(** The end of the last segment created, [0] before the first. *)
Definition last_mark (l : list Segment) : Q :=
  match rev l with
  | [] => 0
  | s :: _ => seg_end s
  end.

(** What [mark_segment] maintains: positions in [segments] are the
    indices, the cursor is the last mark, content starts are not negative. *)
Record segmenter_ok (self : LiveRecorder) : Prop := {
  ok_indices :
    map seg_index (segments self) = seq 0 (length (segments self));
  ok_cursor : last_segment_end self = last_mark (segments self);
  ok_overlap : overlap_seconds self = 1%Q;
  ok_starts :
    Forall (fun s => (0 <= seg_actual_start s)%Q) (segments self);
  ok_cursor_pos : (0 <= last_segment_end self)%Q
}.

(** The recorder after a first mark three seconds into the session. *)
Definition after_first_mark : LiveRecorder :=
  mark_step (start_recording init) (3%Q, paragraph).

Definition after_second_mark : LiveRecorder :=
  mark_step after_first_mark (6%Q, sentence).

(** ** Invariants of the two threads *)

(** The segment the worker holds between [queue.get] and the end of the
    round. *)
Definition in_flight (pc : WorkerPc) : list Segment :=
  match pc with
  | Transcribing segment => [segment]
  | _ => []
  end.

Record system_ok (s : System) : Prop := {
  sys_queue : segments (rec s) = taken s ++ transcription_queue (rec s);
  sys_taken : taken s = completed s ++ in_flight (worker s);
  sys_flag :
    recording (rec s)
    = match main s with Stopped => false | _ => true end;
  sys_read : worker s = AtQueueEmpty -> main s = Stopped;
  sys_exit :
    worker s = Finished ->
    main s = Stopped /\ transcription_queue (rec s) = [];
  sys_texts : Forall (fun kv => res_text (snd kv) <> []) (results (rec s))
}.

(** Worker steps left until the loop is left, once the session is
    stopped. *)
Definition steps_left (s : System) : nat :=
  let n := length (transcription_queue (rec s)) in
  match worker s with
  | Finished => 0
  | AtQueueEmpty => 4 * n + 1
  | AtWhile => 4 * n + 2
  | AtGet => match n with 0 => 3 | _ => 4 * n end
  | Transcribing _ => 4 * n + 3
  end.

(** The extraction or the transcription fails: no clip, or no text from
    whisper. *)
Definition failure (w : World) : Prop :=
  (audio_exists w = false /\ extraction w <> ExtractFile)
  \/ (forall raw, whisper w <> JsonText raw).

(** ** A concrete session: two marks, two rounds of the worker, the stop *)

Definition first_text : str := lit "and then we saw it a b c d e".

(** Segment 0 is marked, taken by the worker and transcribed. *)
Definition session_first_done : System :=
  worker_step (world_text first_text)
    (worker_step (world_text first_text)
       (worker_step (world_text first_text)
          (main_mark 3 paragraph initial))).

(** Segment 1 is marked and taken by the worker. *)
Definition session_second_taken : System :=
  worker_step (world_text first_text)
    (worker_step (world_text first_text)
       (main_mark 6 sentence session_first_done)).

(** The session is stopped at 10 seconds while segment 1 is in work. *)
Definition session_stopped : System :=
  main_stop_flag (main_stop_mark 10 session_second_taken).

Definition world_no_clip : World :=
  {| audio_exists := false; extraction := ExtractNoFile;
     whisper := JsonAbsent |}.

(** A session stopped at two seconds without a mark, whose only segment
    (from the final mark) yields no clip. *)
Definition session_silent : System :=
  transcription_worker (repeat world_no_clip 7)
    (main_stop_flag (main_stop_mark 2 initial)).

(** Three results written out of order: the stop at 10 seconds after marks
    at 3 (paragraph) and 6 (sentence). *)
Definition three_results : Dict.dict Result :=
  [ (2, result_at (lit "and the end") 6 10 paragraph);
    (0, result_at (lit "first words") 0 3 paragraph);
    (1, result_at (lit "then more") 3 6 sentence) ].

(** Marks at 3 (paragraph) and 6 (sentence) seconds, the stop at 10; then
    the worker alone, each of the three segments transcribed to its own
    text. *)
Definition session_end_to_end : System :=
  transcription_worker
    (repeat (world_text (lit " first words")) 4
     ++ repeat (world_text (lit " then more")) 4
     ++ repeat (world_text (lit " and the end")) 6)
    (main_stop_flag
       (main_stop_mark 10
          (main_mark 6 sentence (main_mark 3 paragraph initial)))).

(** ** The keyboard loop: [monitor_input]

    One round of the loop reads a character with [get_single_char] ([None]
    when nothing arrived within the timeout, or at end of input) and, when
    the character marks or stops, the clock.  A round is given as this
    character and this clock reading. *)

Definition RETURN : codepoint := 13%N.
Definition PERIOD : codepoint := 46%N.
Definition CTRL_C : codepoint := 3%N.

Definition Poll := (option codepoint * Q)%type.

Fixpoint monitor_input (self : LiveRecorder) (polls : list Poll)
  : LiveRecorder :=
  match polls with
  | [] => self
  | (ch, now) :: rest =>
      if negb (recording self) then self          (* while self.recording *)
      else
        match ch with
        | None => monitor_input self rest
        | Some ch =>
            if (ch =? RETURN)%N || (ch =? NEWLINE)%N then
              monitor_input (fst (mark_segment self now paragraph)) rest
            else if (ch =? PERIOD)%N then
              monitor_input (fst (mark_segment self now sentence)) rest
            else if (ch =? CTRL_C)%N then
              stop_recording self now                           (* break *)
            else monitor_input self rest
        end
  end.

(** The keys the loop reacts to. *)
Definition is_command (p : Poll) : bool :=
  match fst p with
  | Some ch =>
      (ch =? RETURN)%N || (ch =? NEWLINE)%N || (ch =? PERIOD)%N
      || (ch =? CTRL_C)%N
  | None => false
  end.

Definition is_stop (p : Poll) : bool :=
  match fst p with
  | Some ch => (ch =? CTRL_C)%N
  | None => false
  end.

(** The mark a round makes, if any. *)
Definition mark_of (p : Poll) : list Mark :=
  match fst p with
  | Some ch =>
      if (ch =? RETURN)%N || (ch =? NEWLINE)%N then [(snd p, paragraph)]
      else if (ch =? PERIOD)%N then [(snd p, sentence)]
      else []
  | None => []
  end.

(** ** The clip [extract_segment_audio] asks ffmpeg for: from [-ss start]
    to [-to end + 0.5]. *)
Definition extraction_window (segment : Segment) : Q * Q :=
  (seg_start segment, (seg_end segment + (1 # 2))%Q).

(** ** [show_live_preview]

    The method reads no field the final pipeline writes and writes only
    [current_draft] and the terminal; it is given the drafts and returns
    them with what it printed. *)

(** The whisper run of the preview and the text file it leaves: the process
    could not be started, timed out, or the file could not be read; no text
    file; a text file holding [raw]. *)
Inductive Preview :=
| PreviewRaises
| TxtAbsent
| TxtText (raw : str).

Record PreviewWorld := {
  preview_extraction : Clip;
  preview_run : Preview
}.

Inductive PreviewMessage :=
| PrevTranscribing (number : nat)
| PrevClear
| PrevDraft (at_time : str) (text : str).

Definition show_live_preview (current_draft : Dict.dict str)
    (segment : Segment) (w : PreviewWorld)
  : PyResult (Dict.dict str * list PreviewMessage) :=
  match preview_extraction w with
  | ExtractRaises => Raised
  | ExtractNoFile => Returned (current_draft, [])
  | ExtractFile =>
      let progress := PrevTranscribing (seg_index segment + 1) in
      match preview_run w with
      | PreviewRaises => Returned (current_draft, [progress])
      | TxtAbsent => Returned (current_draft, [progress])
      | TxtText raw =>
          let draft_text := strip raw in
          Returned
            (Dict.set current_draft (seg_index segment) draft_text,
             [progress; PrevClear;
              PrevDraft (format_time (seg_actual_start segment))
                draft_text])
      end
  end.

(** ** Further invariants *)

(** A segment's window starts at most [overlap_seconds] (one second) before
    its content, never before the start of the session, and its content is
    longer than the minimum of half a second. *)
Definition well_formed (s : Segment) : Prop :=
  (0 <= seg_start s)%Q
  /\ (seg_start s <= seg_actual_start s)%Q
  /\ (seg_actual_start s - seg_start s <= 1)%Q
  /\ seg_start s = Qmax 0 (seg_actual_start s - 1)
  /\ (seg_actual_start s + (1 # 2) < seg_end s)%Q.

(** Each segment's content starts where the content of the one before it
    ended. *)
Definition adjacent (l : list Segment) : Prop :=
  forall l1 a b l2,
    l = l1 ++ a :: b :: l2 -> seg_actual_start b = seg_end a.

Record recorder_ok (self : LiveRecorder) : Prop := {
  rok_segmenter : segmenter_ok self;
  rok_well_formed : Forall well_formed (segments self);
  rok_adjacent : adjacent (segments self);
  rok_first :
    forall a l, segments self = a :: l -> seg_actual_start a = 0%Q;
  rok_previews : previews self = segments self
}.

(** The result [r] stored under [k] is the one of [segment]. *)
Definition from_segment (k : nat) (r : Result) (segment : Segment) : Prop :=
  seg_index segment = k
  /\ res_start r = seg_actual_start segment
  /\ res_end r = seg_end segment
  /\ res_type r = seg_type segment.

(** No whitespace at either end. *)
Definition trimmed (text : str) : Prop := strip text = text.

Record pipeline_ok (s : System) : Prop := {
  pipe_recorder : recorder_ok (rec s);
  pipe_results :
    forall k r,
      Dict.get (results (rec s)) k = Some r ->
      exists segment, In segment (completed s) /\ from_segment k r segment;
  pipe_keys : StronglySorted lt (Dict.keys (results (rec s)));
  pipe_trimmed :
    Forall (fun kv => trimmed (res_text (snd kv))) (results (rec s))
}.

(** The figures [save_results] writes for a result map. *)
Definition paragraph_count (results : Dict.dict Result) : nat :=
  length (filter (fun r => match res_type r with
                           | paragraph => true
                           | sentence => false
                           end)
                 (Dict.values results)).

Definition word_count (results : Dict.dict Result) : nat :=
  list_sum (map (fun r => length (split (res_text r)))
                (Dict.values results)).

(** The three results of the session above, written in another order, and
    a recorder holding a given result map. *)
Definition three_results_shuffled : Dict.dict Result :=
  [ (1, result_at (lit "then more") 3 6 sentence);
    (0, result_at (lit "first words") 0 3 paragraph);
    (2, result_at (lit "and the end") 6 10 paragraph) ].

Definition set_results_of (results : Dict.dict Result) : LiveRecorder := {|
  recording := false;
  segments := [];
  transcription_queue := [];
  results := results;
  last_segment_end := 0;
  overlap_seconds := 1;
  previews := [];
  console := []
|}.

(** * Properties *)

(** ** The embedding on small inputs *)

Example ex_split :
  split (lit "  brown fox  jumps over the lazy dog ")
  = map lit ["brown"; "fox"; "jumps"; "over"; "the"; "lazy"; "dog"]%string.
Proof. reflexivity. Qed.

Example ex_overlap_removed :
  remove_overlap (lit "and then we saw it a b c d e")
                 (lit "a  b c d e a b c d e tail")
  = lit "tail".
Proof. vm_compute. reflexivity. Qed.

Example ex_format_time_0 : format_time 0 = lit "00:00".
Proof. reflexivity. Qed.

Example ex_format_time_75 : format_time (151 # 2) = lit "01:15".
Proof. reflexivity. Qed.

Example ex_format_time_long : format_time 6005 = lit "100:05".
Proof. reflexivity. Qed.

(** ** Strings *)

Lemma startswith_app (sub post : str) : startswith (sub ++ post) sub = true.
Proof.
  induction sub as [|a sub IH]; simpl.
  - now destruct post.
  - now rewrite N.eqb_refl.
Qed.

Lemma startswith_inv (s sub : str) :
  startswith s sub = true -> exists post, s = sub ++ post.
Proof.
  revert s; induction sub as [|a sub IH]; intros s H.
  - now exists s.
  - destruct s as [|b s]; simpl in H; [discriminate|].
    apply andb_true_iff in H as [Hab Hs].
    apply N.eqb_eq in Hab; subst b.
    destruct (IH _ Hs) as [post ->].
    now exists post.
Qed.

Lemma startswith_iff (s sub : str) :
  startswith s sub = true <-> occurs_at 0 sub s.
Proof.
  split.
  - intros H. destruct (startswith_inv _ _ H) as [post ->].
    now exists [], post.
  - intros (pre & post & -> & Hlen).
    destruct pre; [|discriminate]. simpl. apply startswith_app.
Qed.

Lemma occurs_at_cons (i : nat) (c : codepoint) (sub s : str) :
  occurs_at (S i) sub (c :: s) <-> occurs_at i sub s.
Proof.
  split.
  - intros (pre & post & E & Hlen).
    destruct pre as [|c' pre]; [discriminate|].
    injection E as _ E. injection Hlen as Hlen.
    now exists pre, post.
  - intros (pre & post & -> & Hlen).
    exists (c :: pre), post. simpl. now rewrite Hlen.
Qed.

Lemma occurs_at_nil (i : nat) (sub : str) :
  occurs_at i sub [] -> i = 0 /\ sub = [].
Proof.
  intros (pre & post & E & Hlen).
  symmetry in E. apply app_eq_nil in E as [-> E].
  apply app_eq_nil in E as [-> _]. now subst.
Qed.

Lemma find_nat_eq (s sub : str) :
  find_nat s sub =
  if startswith s sub then Some 0
  else match s with
       | [] => None
       | _ :: r => option_map S (find_nat r sub)
       end.
Proof. now destruct s. Qed.

Lemma find_nat_none (s sub : str) :
  find_nat s sub = None -> forall i, ~ occurs_at i sub s.
Proof.
  induction s as [|c s IH]; rewrite find_nat_eq; intros H i Hi.
  - destruct (startswith [] sub) eqn:E; [discriminate H|].
    destruct (occurs_at_nil Hi) as [-> ->]. discriminate E.
  - destruct (startswith (c :: s) sub) eqn:E; [discriminate H|].
    destruct i as [|i].
    + apply startswith_iff in Hi. congruence.
    + apply occurs_at_cons in Hi.
      destruct (find_nat s sub) eqn:F; [discriminate H|].
      now apply (IH eq_refl i).
Qed.

Lemma find_nat_some (s sub : str) (i : nat) :
  find_nat s sub = Some i <-> first_at i sub s.
Proof.
  revert i; induction s as [|c s IH]; intros i; rewrite find_nat_eq.
  - destruct (startswith [] sub) eqn:E.
    + apply startswith_iff in E. split.
      * intros [= <-]. split; [exact E|]. intros j Hj. lia.
      * intros [Hi _]. apply occurs_at_nil in Hi as [-> _]. reflexivity.
    + split; [discriminate|].
      intros [Hi _]. destruct (occurs_at_nil Hi) as [-> ->].
      discriminate E.
  - destruct (startswith (c :: s) sub) eqn:E.
    + apply startswith_iff in E. split.
      * intros [= <-]. split; [exact E|]. intros j Hj. lia.
      * intros [Hi Hmin]. destruct i as [|i]; [reflexivity|].
        exfalso. apply (Hmin 0); [lia|exact E].
    + assert (E0 : ~ occurs_at 0 sub (c :: s)).
      { intros H. apply startswith_iff in H. congruence. }
      destruct (find_nat s sub) as [k|] eqn:F; simpl.
      * destruct (proj1 (IH k) eq_refl) as [Fk Fmin]. split.
        -- intros [= <-]. split; [now apply occurs_at_cons|].
           intros [|j] Hj; [exact E0|].
           rewrite occurs_at_cons. apply Fmin. lia.
        -- intros [Hi Hmin]. destruct i as [|i]; [contradiction|].
           f_equal. f_equal.
           apply occurs_at_cons in Hi.
           destruct (Nat.lt_trichotomy i k) as [L|[L|L]]; [|exact (eq_sym L)|].
           ++ exfalso. now apply (Fmin i).
           ++ exfalso. apply (Hmin (S k)); [lia|]. now apply occurs_at_cons.
      * split; [discriminate|].
        intros [Hi _]. destruct i as [|i]; [contradiction|].
        apply occurs_at_cons in Hi.
        destruct (find_nat_none F Hi).
Qed.

Lemma find_from_eq (i : Z) (s sub : str) :
  find_from i s sub =
  if startswith s sub then i
  else match s with
       | [] => (-1)%Z
       | _ :: r => find_from (i + 1) r sub
       end.
Proof. now destruct s. Qed.

Lemma find_from_nat (i : Z) (s sub : str) :
  find_from i s sub =
  match find_nat s sub with
  | Some k => (i + Z.of_nat k)%Z
  | None => (-1)%Z
  end.
Proof.
  revert i; induction s as [|c s IH]; intros i;
    rewrite find_nat_eq, find_from_eq.
  - destruct (startswith [] sub); [simpl; lia|reflexivity].
  - destruct (startswith (c :: s) sub); [simpl; lia|].
    rewrite IH. destruct (find_nat s sub); simpl; lia.
Qed.

Lemma find_first (s sub : str) (i : nat) :
  find s sub = Z.of_nat i <-> first_at i sub s.
Proof.
  unfold find. rewrite find_from_nat, <- find_nat_some.
  destruct (find_nat s sub) as [k|]; split; intros H.
  - f_equal. lia.
  - injection H as ->. lia.
  - lia.
  - discriminate.
Qed.

Lemma find_absent (s sub : str) :
  find s sub = (-1)%Z <-> ~ occurs sub s.
Proof.
  unfold find. rewrite find_from_nat.
  destruct (find_nat s sub) as [k|] eqn:F; split; intros H.
  - lia.
  - exfalso. apply H. apply find_nat_some in F as [F _]. now exists k.
  - intros [i Hi]. destruct (find_nat_none F Hi).
  - reflexivity.
Qed.

Lemma find_range (s sub : str) :
  find s sub = (-1)%Z \/ exists i, find s sub = Z.of_nat i.
Proof.
  unfold find. rewrite find_from_nat.
  destruct (find_nat s sub) as [k|]; [right|now left].
  exists k. lia.
Qed.

Lemma occurs_first (sub s : str) :
  occurs sub s -> exists i, first_at i sub s.
Proof.
  intros H. destruct (find_range s sub) as [E|[i E]].
  - now apply find_absent in E.
  - exists i. now apply find_first.
Qed.

Lemma contains_iff (s sub : str) : contains s sub = true <-> occurs sub s.
Proof.
  unfold contains. rewrite Z.leb_le.
  destruct (find_range s sub) as [E|[i E]].
  - split; [lia|]. intros H. now apply find_absent in E.
  - split; [|lia]. intros _. apply find_first in E as [E _]. now exists i.
Qed.

Lemma slice_from_occurrence (pre sub post : str) :
  slice_from (pre ++ sub ++ post) (Z.of_nat (length pre) + len sub) = post.
Proof.
  unfold slice_from, len.
  destruct (Z.ltb_spec (Z.of_nat (length pre) + Z.of_nat (length sub)) 0);
    [lia|].
  rewrite <- Nat2Z.inj_add, Nat2Z.id, app_assoc, <- length_app.
  rewrite skipn_app, skipn_all, Nat.sub_diag. reflexivity.
Qed.

(** ** Overlap removal *)

Lemma occurs_at_0_nil (s : str) : occurs_at 0 [] s.
Proof. now exists [], s. Qed.

Lemma remove_overlap_cut (prev_text full_text : str) (i : nat) :
  20 < length prev_text ->
  overlap_found prev_text full_text i ->
  exists pre post,
    full_text = pre ++ probe full_text ++ post
    /\ length pre = i
    /\ remove_overlap prev_text full_text = strip post.
Proof.
  intros Hlen (Hprev & Hfirst & Hpos).
  pose proof Hfirst as [(pre & post & E & Hpre) Hmin].
  exists pre, post. repeat split; trivial.
  unfold remove_overlap. cbv zeta. fold (probe full_text).
  replace (len prev_text >? 20)%Z with true
    by (symmetry; apply Z.gtb_gt; unfold len; lia).
  destruct (firstn 5 (split full_text)) as [|w0 ws] eqn:W.
  - exfalso. apply (Hmin 0 Hpos).
    unfold probe. rewrite W. apply occurs_at_0_nil.
  - cbv iota.
    rewrite (proj2 (contains_iff _ _) Hprev).
    rewrite (proj2 (find_first _ _ _) Hfirst).
    replace (Z.of_nat i >? 0)%Z with true
      by (symmetry; apply Z.gtb_gt; lia).
    rewrite <- Hpre. rewrite E at 1.
    now rewrite slice_from_occurrence.
Qed.

Lemma remove_overlap_keep (prev_text full_text : str) :
  length prev_text <= 20
  \/ ~ occurs (probe full_text) prev_text
  \/ (forall i, first_at i (probe full_text) full_text -> i = 0) ->
  remove_overlap prev_text full_text = full_text.
Proof.
  intros H. unfold remove_overlap. cbv zeta. fold (probe full_text).
  destruct (Z.gtb_spec (len prev_text) 20) as [L|L]; [|reflexivity].
  destruct (firstn 5 (split full_text)) as [|w0 ws] eqn:W; [reflexivity|].
  cbv iota.
  destruct (contains prev_text (probe full_text)) eqn:C; [|reflexivity].
  apply contains_iff in C.
  destruct H as [H|[H|H]]; [unfold len in L; lia|contradiction|].
  destruct (find_range full_text (probe full_text)) as [E|[i E]].
  - now rewrite E.
  - rewrite E. apply find_first in E. apply H in E. now subst.
Qed.

Lemma transcribe_segment_text (self : LiveRecorder) (segment : Segment)
    (w : World) (raw : str) :
  audio_available w ->
  whisper w = JsonText raw ->
  transcribe_segment self segment w =
  (self,
   Returned
     (Some
        (if (0 <? seg_index segment)
            && Dict.mem (results self) (seg_index segment - 1)
         then match Dict.get (results self) (seg_index segment - 1) with
              | Some prev => remove_overlap (res_text prev) (strip raw)
              | None => strip raw
              end
         else strip raw))).
Proof.
  intros Ha Hw. unfold transcribe_segment, extract_segment_audio.
  rewrite Hw.
  destruct Ha as [Ha|Ha]; rewrite Ha; [reflexivity|].
  now destruct (audio_exists w).
Qed.

(** C1 (as amended): when the clip is transcribed to [raw], the text
    returned for segment i is [strip raw] cut after the first occurrence of
    its probe phrase and stripped again, exactly when i > 0, a final result
    for i-1 exists, that result's text is longer than 20 characters, the
    probe occurs in it, and the probe's first offset in [strip raw] is
    positive; in every other case it is [strip raw]. *)
Theorem transcribe_segment_overlap (self : LiveRecorder) (segment : Segment)
    (w : World) (raw : str) :
  audio_available w ->
  whisper w = JsonText raw ->
  exists text,
    transcribe_segment self segment w = (self, Returned (Some text))
    /\ (forall prev i,
          0 < seg_index segment ->
          Dict.get (results self) (seg_index segment - 1) = Some prev ->
          20 < length (res_text prev) ->
          overlap_found (res_text prev) (strip raw) i ->
          exists pre post,
            strip raw = pre ++ probe (strip raw) ++ post
            /\ length pre = i
            /\ text = strip post)
    /\ (~ (exists prev i,
             0 < seg_index segment
             /\ Dict.get (results self) (seg_index segment - 1) = Some prev
             /\ 20 < length (res_text prev)
             /\ overlap_found (res_text prev) (strip raw) i) ->
        text = strip raw).
Proof.
  intros Ha Hw. rewrite (transcribe_segment_text self segment Ha Hw).
  eexists. split; [reflexivity|]. unfold Dict.mem. split.
  - intros prev i Hidx Hget Hlen Hfound.
    apply Nat.ltb_lt in Hidx. rewrite Hidx, Hget. simpl.
    destruct (remove_overlap_cut Hlen Hfound) as (pre & post & E & L & R).
    now exists pre, post.
  - intros Hnot.
    destruct (Nat.ltb_spec 0 (seg_index segment)) as [Hidx|Hidx];
      [|reflexivity].
    destruct (Dict.get (results self) (seg_index segment - 1))
      as [prev|] eqn:Hget; [|reflexivity].
    simpl. apply remove_overlap_keep.
    destruct (le_lt_dec (length (res_text prev)) 20) as [L|L]; [now left|].
    destruct (contains (res_text prev) (probe (strip raw))) eqn:C.
    + right; right. intros [|i] Hi; [reflexivity|].
      exfalso. apply Hnot. exists prev, (S i).
      repeat split; try apply Hi; trivial; try lia.
      now apply contains_iff.
    + right; left. intros Ho. apply contains_iff in Ho. congruence.
Qed.

Lemma transcribe_segment_overlap_witness :
  audio_available (world_text doubled_start)
  /\ whisper (world_text doubled_start) = JsonText doubled_start
  /\ exists text,
       transcribe_segment
         (recorder_with_first (lit "and then we saw it a b c d e"))
         segment_1 (world_text doubled_start)
       = (recorder_with_first (lit "and then we saw it a b c d e"),
          Returned (Some text))
       /\ (forall prev i,
             0 < seg_index segment_1 ->
             Dict.get
               (results
                  (recorder_with_first (lit "and then we saw it a b c d e")))
               (seg_index segment_1 - 1) = Some prev ->
             20 < length (res_text prev) ->
             overlap_found (res_text prev) (strip doubled_start) i ->
             exists pre post,
               strip doubled_start
               = pre ++ probe (strip doubled_start) ++ post
               /\ length pre = i
               /\ text = strip post)
       /\ (~ (exists prev i,
                0 < seg_index segment_1
                /\ Dict.get
                     (results
                        (recorder_with_first
                           (lit "and then we saw it a b c d e")))
                     (seg_index segment_1 - 1) = Some prev
                /\ 20 < length (res_text prev)
                /\ overlap_found (res_text prev) (strip doubled_start) i) ->
           text = strip doubled_start).
Proof.
  split; [left; reflexivity|]. split; [reflexivity|].
  apply (@transcribe_segment_overlap
           (recorder_with_first (lit "and then we saw it a b c d e"))
           segment_1 (world_text doubled_start) doubled_start).
  - left; reflexivity.
  - reflexivity.
Defined.

(** C1 (as stated) fails: the final text of segment 0 is "a b c d e"
    (9 characters); the probe of segment 1's text is "a b c d e", it occurs
    in segment 0's text and first occurs in segment 1's text at offset 11,
    yet segment 1's text is returned uncut, where the claim gives "tail". *)
Lemma overlap_short_previous_not_cut :
  let prev_text := lit "a b c d e" in
  let full_text := strip doubled_start in
  probe full_text = lit "a b c d e"
  /\ contains prev_text (probe full_text) = true
  /\ find full_text (probe full_text) = 11%Z
  /\ claimed_overlap prev_text full_text = lit "tail"
  /\ snd (transcribe_segment (recorder_with_first prev_text) segment_1
            (world_text doubled_start))
     = Returned (Some doubled_start)
  /\ snd (transcribe_segment (recorder_with_first prev_text) segment_1
            (world_text doubled_start))
     <> Returned (Some (claimed_overlap prev_text full_text)).
Proof.
  cbv zeta. repeat split; try (vm_compute; reflexivity).
  vm_compute. discriminate.
Qed.

(** ** Splitting single-spaced text *)

Lemma isspace_SPACE : isspace SPACE = true.
Proof. reflexivity. Qed.

Lemma split_from_word (cur w r : str) :
  Forall (fun c => isspace c = false) w ->
  split_from cur (w ++ r) = split_from (cur ++ w) r.
Proof.
  intros Hw; revert cur.
  induction Hw as [|c w Hc _ IH]; intros cur.
  - now rewrite app_nil_r.
  - simpl. rewrite Hc, IH, <- app_assoc. reflexivity.
Qed.

Lemma split_from_space (cur r : str) (c : codepoint) :
  isspace c = true ->
  cur <> [] ->
  split_from cur (c :: r) = cur :: split_from [] r.
Proof.
  intros Hc Hcur. simpl. rewrite Hc. now destruct cur.
Qed.

Lemma split_skip_space (r : str) (c : codepoint) :
  isspace c = true -> split (c :: r) = split r.
Proof. intros Hc. unfold split. simpl. now rewrite Hc. Qed.

Lemma split_blank (s : str) : blank s -> split s = [].
Proof.
  induction 1 as [|c s Hc _ IH]; [reflexivity|].
  now rewrite split_skip_space.
Qed.

Lemma split_word_then (w rest : str) :
  word w ->
  rest = [] \/ (exists c r, rest = c :: r /\ isspace c = true) ->
  split (w ++ rest) = w :: split rest.
Proof.
  intros [Hne Hw] Hrest.
  destruct Hrest as [->|(c & r & -> & Hc)].
  - unfold split. rewrite (@split_from_word [] w [] Hw). simpl.
    now destruct w.
  - rewrite (@split_skip_space r c Hc). unfold split.
    rewrite (@split_from_word [] w (c :: r) Hw). simpl app.
    now rewrite (@split_from_space w r c Hc Hne).
Qed.

Lemma split_join (ws : list str) (rest : str) :
  Forall word ws ->
  ws <> [] ->
  rest = [] \/ (exists c r, rest = c :: r /\ isspace c = true) ->
  split (join [SPACE] ws ++ rest) = ws ++ split rest.
Proof.
  intros Hws. induction Hws as [|w ws Hw Hws IH]; intros Hne Hrest.
  - contradiction.
  - destruct ws as [|w2 ws].
    + simpl. now apply split_word_then.
    + change (join [SPACE] (w :: w2 :: ws))
        with (w ++ [SPACE] ++ join [SPACE] (w2 :: ws)).
      rewrite <- !app_assoc.
      rewrite split_word_then; trivial.
      * simpl. f_equal. rewrite split_skip_space by apply isspace_SPACE.
        apply IH; [discriminate|exact Hrest].
      * right. eexists _, _. split; [reflexivity|apply isspace_SPACE].
Qed.

Lemma single_spaced_probe (text : str) :
  single_spaced text -> exists rest, text = probe text ++ rest.
Proof.
  intros (ws & rest & Hws & -> & Hcase). exists rest. f_equal.
  unfold probe. f_equal. symmetry.
  destruct ws as [|w ws].
  - simpl. destruct Hcase as [[H _]|[_ Hb]]; [discriminate|].
    now rewrite split_blank.
  - rewrite split_join; trivial; try discriminate.
    + destruct Hcase as [[H _]|[H Hb]].
      * rewrite firstn_app, H. rewrite <- H at 1.
        now rewrite firstn_all, Nat.sub_diag, app_nil_r.
      * rewrite (split_blank Hb), app_nil_r.
        apply firstn_all2. lia.
    + destruct Hcase as [[_ H]|[_ Hb]]; [exact H|].
      destruct Hb as [|c r Hc _]; [now left|right].
      now exists c, r.
Qed.

Lemma remove_overlap_single_spaced (prev_text full_text : str) :
  single_spaced full_text -> remove_overlap prev_text full_text = full_text.
Proof.
  intros H. apply remove_overlap_keep. right; right.
  destruct (single_spaced_probe H) as [rest E].
  assert (H0 : first_at 0 (probe full_text) full_text).
  { split; [|intros j Hj; lia]. exists [], rest. now split. }
  intros i Hi. apply find_first in H0, Hi. lia.
Qed.

(** C10: when the clip is transcribed to a text whose stripped form starts
    with its first five words separated by single spaces, the text returned
    for the segment is that stripped text, unchanged, whatever the recorder
    holds as the result of the previous segment. *)
Theorem transcribe_segment_single_spaced (self : LiveRecorder)
    (segment : Segment) (w : World) (raw : str) :
  audio_available w ->
  whisper w = JsonText raw ->
  single_spaced (strip raw) ->
  transcribe_segment self segment w = (self, Returned (Some (strip raw))).
Proof.
  intros Ha Hw Hs. rewrite (transcribe_segment_text self segment Ha Hw).
  destruct ((0 <? seg_index segment)
            && Dict.mem (results self) (seg_index segment - 1));
    [|reflexivity].
  destruct (Dict.get (results self) (seg_index segment - 1));
    [|reflexivity].
  now rewrite remove_overlap_single_spaced.
Qed.

Lemma lazy_dog_single_spaced : single_spaced (strip lazy_dog).
Proof.
  exists (map lit ["brown"; "fox"; "jumps"; "over"; "the"]%string),
         (lit " lazy dog").
  split; [|split].
  - repeat constructor; discriminate.
  - reflexivity.
  - left. split; [reflexivity|]. right.
    exists SPACE, (lit "lazy dog"). now split.
Defined.

Lemma transcribe_segment_single_spaced_witness :
  audio_available (world_text lazy_dog)
  /\ whisper (world_text lazy_dog) = JsonText lazy_dog
  /\ single_spaced (strip lazy_dog)
  /\ transcribe_segment (recorder_with_first quick_prev) segment_1
       (world_text lazy_dog)
     = (recorder_with_first quick_prev, Returned (Some (strip lazy_dog))).
Proof.
  split; [left; reflexivity|]. split; [reflexivity|].
  split; [exact lazy_dog_single_spaced|].
  apply (@transcribe_segment_single_spaced
           (recorder_with_first quick_prev) segment_1
           (world_text lazy_dog) lazy_dog).
  - left; reflexivity.
  - reflexivity.
  - exact lazy_dog_single_spaced.
Defined.

(** ** The segmenter *)

Lemma Qgt_bool_iff (a b : Q) : Qgt_bool a b = true <-> (b < a)%Q.
Proof.
  unfold Qgt_bool. rewrite negb_true_iff, <- not_true_iff_false.
  rewrite Qle_bool_iff. split; [apply Qnot_le_lt|apply Qlt_not_le].
Qed.

Lemma Qgt_bool_false (a b : Q) : Qgt_bool a b = false <-> (a <= b)%Q.
Proof.
  unfold Qgt_bool. rewrite negb_false_iff. apply Qle_bool_iff.
Qed.

Lemma py_max_Qmax (a b : Q) : py_max a b = Qmax a b.
Proof.
  unfold py_max, Qmax, GenericMinMax.gmax.
  destruct (Qcompare_spec a b) as [H|H|H];
    destruct (Qgt_bool b a) eqn:E; try reflexivity; exfalso.
  - apply Qgt_bool_iff in E. rewrite H in E. now apply Qlt_irrefl in E.
  - apply Qgt_bool_false in E. now apply Qlt_not_le in H.
  - apply Qgt_bool_iff in E. apply Qlt_le_weak in E.
    now apply Qlt_not_le in H.
Qed.

Lemma mark_segment_accepted (self self' : LiveRecorder) (t : Q)
    (ty : SegmentType) (segment : Segment) :
  mark_segment self t ty = (self', Some segment) ->
  recording self = true
  /\ (last_segment_end self + (1 # 2) < t)%Q
  /\ segment =
     {| seg_start := py_max 0 (last_segment_end self - overlap_seconds self);
        seg_end := t;
        seg_type := ty;
        seg_index := length (segments self);
        seg_actual_start := last_segment_end self |}
  /\ segments self' = segments self ++ [segment]
  /\ transcription_queue self' = transcription_queue self ++ [segment]
  /\ last_segment_end self' = t
  /\ overlap_seconds self' = overlap_seconds self
  /\ results self' = results self
  /\ recording self' = recording self.
Proof.
  unfold mark_segment.
  destruct (recording self); simpl; [|discriminate].
  destruct (Qgt_bool t (last_segment_end self + (1 # 2))) eqn:E;
    [|discriminate].
  intros [= <- <-]. apply Qgt_bool_iff in E. simpl. tauto.
Qed.

Lemma mark_segment_none (self self' : LiveRecorder) (t : Q)
    (ty : SegmentType) :
  mark_segment self t ty = (self', None) -> self' = self.
Proof.
  unfold mark_segment.
  destruct (recording self); simpl; [|congruence].
  destruct (Qgt_bool t (last_segment_end self + (1 # 2))); congruence.
Qed.

(** C3: a mark at a time [t] that is at most half a second after the last
    content end creates no segment and leaves the recorder (cursor,
    segment list and so next index, queue, and everything else) as it
    was. *)
Theorem mark_segment_rejected (self : LiveRecorder) (t : Q)
    (ty : SegmentType) :
  (t <= last_segment_end self + (1 # 2))%Q ->
  mark_segment self t ty = (self, None).
Proof.
  intros H. unfold mark_segment.
  destruct (recording self); simpl; [|reflexivity].
  now rewrite (proj2 (Qgt_bool_false _ _) H).
Qed.

Lemma mark_segment_rejected_witness :
  (1 # 2 <= last_segment_end (start_recording init) + (1 # 2))%Q
  /\ mark_segment (start_recording init) (1 # 2) paragraph
     = (start_recording init, None).
Proof.
  assert (H : (1 # 2 <= last_segment_end (start_recording init) + (1 # 2))%Q)
    by (unfold Qle; simpl; lia).
  split; [exact H|].
  exact (@mark_segment_rejected (start_recording init) (1 # 2) paragraph H).
Defined.

Lemma last_mark_snoc (l : list Segment) (s : Segment) :
  last_mark (l ++ [s]) = seg_end s.
Proof. unfold last_mark. now rewrite rev_unit. Qed.

Lemma segmenter_ok_started : segmenter_ok (start_recording init).
Proof.
  split; simpl; try reflexivity; [constructor|apply Qle_refl].
Qed.

Lemma segmenter_ok_mark (self : LiveRecorder) (t : Q) (ty : SegmentType) :
  segmenter_ok self -> segmenter_ok (fst (mark_segment self t ty)).
Proof.
  intros [Hi Hc Ho Hs Hp].
  destruct (mark_segment self t ty) as [self' [segment|]] eqn:E; simpl.
  - apply mark_segment_accepted in E
      as (_ & Ht & -> & Es & _ & El & Eo & _ & _).
    split.
    + rewrite Es, map_app, length_app, seq_app, Hi. reflexivity.
    + now rewrite Es, last_mark_snoc.
    + congruence.
    + rewrite Es. apply Forall_app. split; [exact Hs|].
      constructor; [exact Hp|constructor].
    + rewrite El. lra.
  - apply mark_segment_none in E. subst self'. now split.
Qed.

Lemma segmenter_ok_run (self : LiveRecorder) (marks : list Mark) :
  segmenter_ok self -> segmenter_ok (run_marks self marks).
Proof.
  revert self; induction marks as [|m marks IH]; intros self H;
    [exact H|].
  simpl. apply IH. now apply segmenter_ok_mark.
Qed.

(** C2: a mark accepted at time [t], when the content end before it is
    [p = last_segment_end], creates the segment whose window starts at
    [max(0, p - overlap_seconds)], whose content starts at [p] and whose
    window ends at [t]; for the first segment of a session the window
    starts at 0. *)
Theorem mark_segment_window (self self' : LiveRecorder) (t : Q)
    (ty : SegmentType) (segment : Segment) :
  mark_segment self t ty = (self', Some segment) ->
  seg_start segment
  = Qmax 0 (last_segment_end self - overlap_seconds self)
  /\ seg_actual_start segment = last_segment_end self
  /\ seg_end segment = t
  /\ (forall marks,
        self = run_marks (start_recording init) marks ->
        segments self = [] ->
        seg_start segment = 0%Q).
Proof.
  intros E.
  apply mark_segment_accepted in E as (_ & _ & -> & _). simpl.
  rewrite py_max_Qmax. repeat split.
  intros marks -> Hnil.
  destruct (segmenter_ok_run marks segmenter_ok_started)
    as [_ Hc Ho _ _].
  rewrite <- py_max_Qmax, Hc, Ho, Hnil. reflexivity.
Qed.

Lemma mark_segment_window_witness :
  mark_segment after_first_mark 6 sentence
  = (after_second_mark, Some segment_1)
  /\ seg_start segment_1
     = Qmax 0 (last_segment_end after_first_mark
               - overlap_seconds after_first_mark)
  /\ seg_actual_start segment_1 = last_segment_end after_first_mark
  /\ seg_end segment_1 = 6%Q
  /\ (forall marks,
        after_first_mark = run_marks (start_recording init) marks ->
        segments after_first_mark = [] ->
        seg_start segment_1 = 0%Q).
Proof.
  assert (E : mark_segment after_first_mark 6 sentence
              = (after_second_mark, Some segment_1)) by reflexivity.
  split; [exact E|].
  exact (@mark_segment_window after_first_mark after_second_mark 6
           sentence segment_1 E).
Defined.

Lemma run_marks_length (self : LiveRecorder) (marks : list Mark) :
  length (segments (run_marks self marks))
  = length (segments self) + count_accepted self marks.
Proof.
  revert self; induction marks as [|[t ty] marks IH]; intros self; simpl.
  - lia.
  - rewrite IH. unfold mark_step, accepted. simpl.
    destruct (mark_segment self t ty) as [self' [segment|]] eqn:E; simpl.
    + apply mark_segment_accepted in E as (_ & _ & _ & -> & _).
      rewrite length_app. simpl. lia.
    + apply mark_segment_none in E. subst. lia.
Qed.

(** C4: after any sequence of marks from the start of a session, the
    segments created carry the indices 0, 1, 2, ... in order, one per
    accepted mark and none twice; a further mark either is accepted, takes
    the next index and is appended, or is dropped and leaves the segments
    (and so the next index) as they were. *)
Theorem segment_indices (marks : list Mark) :
  let self := run_marks (start_recording init) marks in
  map seg_index (segments self) = seq 0 (length (segments self))
  /\ NoDup (map seg_index (segments self))
  /\ length (segments self)
     = count_accepted (start_recording init) marks
  /\ forall t ty,
       match mark_segment self t ty with
       | (self', Some segment) =>
           seg_index segment = length (segments self)
           /\ segments self' = segments self ++ [segment]
           /\ length (segments self') = S (length (segments self))
       | (self', None) => segments self' = segments self
       end.
Proof.
  intros self.
  destruct (segmenter_ok_run marks segmenter_ok_started) as [Hi _ _ _ _].
  fold self in Hi. repeat split.
  - exact Hi.
  - rewrite Hi. apply seq_NoDup.
  - unfold self. now rewrite run_marks_length.
  - intros t ty.
    destruct (mark_segment self t ty) as [self' [segment|]] eqn:E.
    + apply mark_segment_accepted in E as (_ & _ & -> & -> & _).
      rewrite length_app. simpl. repeat split. lia.
    + apply mark_segment_none in E. now subst.
Qed.

(** ** The worker *)

Lemma transcribe_segment_frame (self : LiveRecorder) (segment : Segment)
    (w : World) :
  let self' := fst (transcribe_segment self segment w) in
  recording self' = recording self
  /\ segments self' = segments self
  /\ transcription_queue self' = transcription_queue self
  /\ results self' = results self
  /\ last_segment_end self' = last_segment_end self.
Proof.
  unfold transcribe_segment, extract_segment_audio.
  destruct (audio_exists w), (extraction w), (whisper w); simpl; tauto.
Qed.

Lemma transcribe_segment_failure (self : LiveRecorder) (segment : Segment)
    (w : World) :
  failure w ->
  snd (transcribe_segment self segment w) = Raised
  \/ snd (transcribe_segment self segment w) = Returned None.
Proof.
  unfold failure, transcribe_segment, extract_segment_audio.
  intros [[Ha He]|Hw].
  - rewrite Ha. destruct (extraction w); simpl; tauto.
  - destruct (audio_exists w), (extraction w), (whisper w) as [| | |raw];
      simpl; try tauto; now contradiction (Hw raw).
Qed.

Lemma worker_process_frame (self : LiveRecorder) (segment : Segment)
    (w : World) :
  let self' := worker_process self segment w in
  recording self' = recording self
  /\ segments self' = segments self
  /\ transcription_queue self' = transcription_queue self
  /\ last_segment_end self' = last_segment_end self.
Proof.
  unfold worker_process.
  pose proof (transcribe_segment_frame self segment w) as H.
  destruct (transcribe_segment self segment w) as [self1 [[[|c text]|]|]];
    simpl in *; tauto.
Qed.

Lemma worker_process_results (self : LiveRecorder) (segment : Segment)
    (w : World) :
  results (worker_process self segment w) = results self
  \/ exists c text,
       snd (transcribe_segment self segment w) = Returned (Some (c :: text))
       /\ results (worker_process self segment w)
          = Dict.set (results self) (seg_index segment)
              {| res_text := c :: text;
                 res_start := seg_actual_start segment;
                 res_end := seg_end segment;
                 res_type := seg_type segment |}.
Proof.
  unfold worker_process.
  pose proof (transcribe_segment_frame self segment w) as (_ & _ & _ & H & _).
  destruct (transcribe_segment self segment w) as [self1 [[[|c text]|]|]];
    simpl in *; try (left; exact H).
  right. exists c, text. now rewrite H.
Qed.

Lemma worker_process_dropped (self : LiveRecorder) (segment : Segment)
    (w : World) :
  (forall c text,
     snd (transcribe_segment self segment w) <> Returned (Some (c :: text))) ->
  results (worker_process self segment w) = results self.
Proof.
  intros H. destruct (worker_process_results self segment w)
    as [E|(c & text & E & _)]; [exact E|].
  now contradiction (H c text).
Qed.

Lemma dict_set_Forall (V : Type) (P : nat * V -> Prop)
    (d : Dict.dict V) (k : nat) (v : V) :
  Forall P d -> P (k, v) -> Forall P (Dict.set d k v).
Proof.
  intros Hd Hv. induction Hd as [|[k' v'] d Hk Hd IH]; simpl.
  - now constructor.
  - destruct (Nat.eqb k k'); constructor; trivial.
Qed.

Lemma worker_process_texts (self : LiveRecorder) (segment : Segment)
    (w : World) :
  Forall (fun kv => res_text (snd kv) <> []) (results self) ->
  Forall (fun kv => res_text (snd kv) <> [])
         (results (worker_process self segment w)).
Proof.
  intros H. destruct (worker_process_results self segment w)
    as [E|(c & text & _ & E)]; rewrite E; [exact H|].
  apply dict_set_Forall; [exact H|]. simpl. discriminate.
Qed.

(** ** The two threads *)

Lemma system_ok_initial : system_ok initial.
Proof.
  split; simpl; try reflexivity; try discriminate. constructor.
Qed.

Lemma mark_segment_cases (self : LiveRecorder) (t : Q) (ty : SegmentType) :
  let self' := fst (mark_segment self t ty) in
  recording self' = recording self
  /\ results self' = results self
  /\ exists new,
       segments self' = segments self ++ new
       /\ transcription_queue self' = transcription_queue self ++ new.
Proof.
  destruct (mark_segment self t ty) as [self' [segment|]] eqn:E; simpl.
  - apply mark_segment_accepted in E
      as (_ & _ & _ & Es & Eq & _ & _ & Er & Ec).
    repeat split; trivial. now exists [segment].
  - apply mark_segment_none in E. subst.
    repeat split. exists []. now rewrite !app_nil_r.
Qed.

Lemma system_ok_main_mark (s : System) (t : Q) (ty : SegmentType) :
  system_ok s -> main s = Monitoring -> system_ok (main_mark t ty s).
Proof.
  intros [Hq Ht Hf Hr He Hx] Hm.
  destruct (mark_segment_cases (rec s) t ty)
    as (Ec & Er & new & Es & Eq).
  split; simpl.
  - now rewrite Es, Eq, Hq, app_assoc.
  - exact Ht.
  - now rewrite Ec.
  - exact Hr.
  - intros Hw. destruct (He Hw) as [Hs _]. congruence.
  - now rewrite Er.
Qed.

Lemma system_ok_main_stop_mark (s : System) (t : Q) :
  system_ok s -> main s = Monitoring -> system_ok (main_stop_mark t s).
Proof.
  intros [Hq Ht Hf Hr He Hx] Hm.
  destruct (mark_segment_cases (print MsgStopping (rec s)) t paragraph)
    as (Ec & Er & new & Es & Eq).
  simpl in Ec, Er, Es, Eq. rewrite Hm in Hf.
  split; simpl.
  - now rewrite Es, Eq, Hq, app_assoc.
  - exact Ht.
  - now rewrite Ec.
  - intros Hw. apply Hr in Hw. congruence.
  - intros Hw. destruct (He Hw) as [Hs _]. congruence.
  - now rewrite Er.
Qed.

Lemma system_ok_main_stop_flag (s : System) :
  system_ok s -> main s = Stopping -> system_ok (main_stop_flag s).
Proof.
  intros [Hq Ht Hf Hr He Hx] Hm.
  split; simpl; trivial.
  - intros Hw. destruct (He Hw) as [Hs _]. congruence.
Qed.

Lemma system_ok_worker_step (s : System) (w : World) :
  system_ok s -> system_ok (worker_step w s).
Proof.
  intros [Hq Ht Hf Hr He Hx]. unfold worker_step.
  destruct (worker s) as [| | |segment|] eqn:Ew.
  - destruct (recording (rec s)) eqn:Er; split; simpl; trivial;
      try discriminate; try congruence.
    intros _. destruct (main s); congruence.
  - destruct (transcription_queue (rec s)) eqn:Eq; split; simpl; trivial;
      try discriminate; try congruence.
    intros _. split; [now apply Hr|exact Eq].
  - destruct (transcription_queue (rec s)) as [|segment rest] eqn:Eq;
      split; simpl; trivial; try discriminate; try congruence.
    + rewrite Hq, <- app_assoc. reflexivity.
    + rewrite Ht. simpl. now rewrite app_nil_r.
  - destruct (worker_process_frame (rec s) segment w)
      as (Ec & Es & Eq & _).
    split; simpl; try discriminate.
    + now rewrite Es, Eq.
    + rewrite Ht. simpl. now rewrite app_nil_r.
    + now rewrite Ec.
    + now apply worker_process_texts.
  - split; rewrite ?Ew; trivial.
Qed.

Lemma system_ok_step (s s' : System) :
  system_ok s -> step s s' -> system_ok s'.
Proof.
  intros H Hstep. destruct Hstep as [s t ty Hm|s t Hm|s Hm|s w Hw].
  - now apply system_ok_main_mark.
  - now apply system_ok_main_stop_mark.
  - now apply system_ok_main_stop_flag.
  - now apply system_ok_worker_step.
Qed.

Lemma reachable_ok (s : System) : reachable s -> system_ok s.
Proof.
  induction 1 as [|s s' _ IH Hstep];
    [exact system_ok_initial|exact (system_ok_step IH Hstep)].
Qed.

Lemma steps_left_zero (s : System) :
  steps_left s = 0 -> worker s = Finished.
Proof.
  unfold steps_left.
  destruct (worker s); try reflexivity; try lia.
  destruct (length (transcription_queue (rec s))); lia.
Qed.

Lemma steps_left_bound (s : System) :
  steps_left s <= 4 * length (transcription_queue (rec s)) + 3.
Proof.
  unfold steps_left.
  destruct (worker s); try lia.
  destruct (length (transcription_queue (rec s))); lia.
Qed.

Lemma worker_step_main (s : System) (w : World) :
  main (worker_step w s) = main s.
Proof.
  unfold worker_step.
  destruct (worker s); try reflexivity.
  - now destruct (recording (rec s)).
  - now destruct (transcription_queue (rec s)).
  - now destruct (transcription_queue (rec s)).
Qed.

Lemma worker_step_segments (s : System) (w : World) :
  segments (rec (worker_step w s)) = segments (rec s).
Proof.
  unfold worker_step.
  destruct (worker s) as [| | |segment|]; try reflexivity.
  - now destruct (recording (rec s)).
  - now destruct (transcription_queue (rec s)).
  - now destruct (transcription_queue (rec s)).
  - simpl. apply worker_process_frame.
Qed.

Lemma worker_step_decreases (s : System) (w : World) :
  system_ok s ->
  main s = Stopped ->
  worker s <> Finished ->
  steps_left (worker_step w s) < steps_left s.
Proof.
  intros [_ _ Hf _ _ _] Hm Hw. rewrite Hm in Hf.
  unfold steps_left, worker_step.
  destruct (worker s) as [| | |segment|].
  - rewrite Hf. simpl. lia.
  - destruct (transcription_queue (rec s)) eqn:Eq;
      simpl; rewrite ?Eq; simpl; lia.
  - destruct (transcription_queue (rec s)) as [|x [|y rest]] eqn:Eq;
      simpl; rewrite ?Eq; simpl; lia.
  - destruct (worker_process_frame (rec s) segment w) as (_ & _ & Eq & _).
    simpl. rewrite Eq. lia.
  - contradiction.
Qed.

Lemma transcription_worker_finishes (ws : list World) (s : System) :
  system_ok s ->
  main s = Stopped ->
  steps_left s <= length ws ->
  worker (transcription_worker ws s) = Finished
  /\ system_ok (transcription_worker ws s)
  /\ segments (rec (transcription_worker ws s)) = segments (rec s).
Proof.
  revert s; induction ws as [|w ws IH]; intros s Hok Hm Hn; simpl in *.
  - split; [apply steps_left_zero; lia|now split].
  - destruct (IH (worker_step w s)) as (Hf & Hok' & Hs).
    + now apply system_ok_worker_step.
    + now rewrite worker_step_main.
    + destruct (worker s) eqn:Ew;
        try (pose proof (@worker_step_decreases s w Hok Hm) as Hd;
             rewrite Ew in Hd; specialize (Hd ltac:(discriminate)); lia).
      unfold worker_step. rewrite Ew.
      unfold steps_left. rewrite Ew. lia.
    + split; [exact Hf|split; [exact Hok'|]].
      now rewrite Hs, worker_step_segments.
Qed.

Lemma finished_all_done (s : System) :
  system_ok s ->
  worker s = Finished ->
  recording (rec s) = false
  /\ transcription_queue (rec s) = []
  /\ completed s = segments (rec s).
Proof.
  intros [Hq Ht Hf _ He _] Hw. destruct (He Hw) as [Hm Hempty].
  rewrite Hm in Hf. rewrite Hw in Ht. simpl in Ht.
  repeat split; trivial.
  now rewrite Hq, Hempty, Ht, !app_nil_r.
Qed.

(** C5: in every state the two threads can reach, the worker has left its
    loop only if the session is inactive and the queue is empty, and then
    every segment ever created has been processed; a step that makes the
    worker leave is taken with the session inactive and the queue empty;
    while the session is active or the queue is non-empty the worker has
    not left and its next step does not leave; and once the session is
    stopped the worker, running alone, leaves after at most
    [4 * len(queue) + 3] steps with every segment processed. *)
Theorem worker_drains (s : System) :
  reachable s ->
  (worker s = Finished ->
   recording (rec s) = false
   /\ transcription_queue (rec s) = []
   /\ completed s = segments (rec s))
  /\ (forall s',
        step s s' -> worker s' = Finished ->
        recording (rec s) = false /\ transcription_queue (rec s) = [])
  /\ (recording (rec s) = true \/ transcription_queue (rec s) <> [] ->
      worker s <> Finished
      /\ forall w, worker (worker_step w s) <> Finished)
  /\ (main s = Stopped ->
      forall ws,
        4 * length (transcription_queue (rec s)) + 3 <= length ws ->
        worker (transcription_worker ws s) = Finished
        /\ transcription_queue (rec (transcription_worker ws s)) = []
        /\ completed (transcription_worker ws s) = segments (rec s)).
Proof.
  intros Hr. pose proof (reachable_ok Hr) as Hok.
  assert (Hleave : forall w,
             worker (worker_step w s) = Finished ->
             recording (rec s) = false /\ transcription_queue (rec s) = []).
  { intros w Hw.
    destruct (worker s) eqn:Ew.
    - unfold worker_step in Hw. rewrite Ew in Hw.
      destruct (recording (rec s)); discriminate.
    - pose proof (sys_read Hok Ew) as Hm.
      pose proof (sys_flag Hok) as Hf. rewrite Hm in Hf.
      unfold worker_step in Hw. rewrite Ew in Hw.
      destruct (transcription_queue (rec s)); [now split|discriminate].
    - unfold worker_step in Hw. rewrite Ew in Hw.
      destruct (transcription_queue (rec s)); discriminate.
    - unfold worker_step in Hw. rewrite Ew in Hw. discriminate.
    - destruct (finished_all_done Hok Ew) as (H1 & H2 & _). now split. }
  split; [|split; [|split]].
  - now apply finished_all_done.
  - intros s' Hstep Hw.
    destruct Hstep as [s t ty Hm|s t Hm|s Hm|s w Hne];
      try (simpl in Hw; destruct (finished_all_done Hok Hw) as (H1 & H2 & _);
           now split).
    now apply (Hleave w).
  - intros Hbusy.
    assert (Hnot : ~ (recording (rec s) = false
                      /\ transcription_queue (rec s) = [])).
    { intros [H1 H2]. destruct Hbusy; congruence. }
    split.
    + intros Hw. apply Hnot.
      destruct (finished_all_done Hok Hw) as (H1 & H2 & _). now split.
    + intros w Hw. apply Hnot. now apply (Hleave w).
  - intros Hm ws Hlen.
    destruct (@transcription_worker_finishes ws s Hok Hm) as (Hf & Hok' & Hs).
    + pose proof (steps_left_bound s). lia.
    + destruct (finished_all_done Hok' Hf) as (_ & H2 & H3).
      repeat split; trivial. congruence.
Qed.

(** Reachability of a state given as the steps that lead to it. *)
Ltac reach :=
  repeat
    first
      [ exact reach_initial
      | eapply reach_step;
        [| first
             [ apply step_mark; reflexivity
             | apply step_stop_mark; reflexivity
             | apply step_stop_flag; reflexivity
             | apply step_worker; vm_compute; discriminate ] ] ].

Lemma session_first_done_reachable : reachable session_first_done.
Proof. unfold session_first_done. reach. Defined.

Lemma session_second_taken_reachable : reachable session_second_taken.
Proof. unfold session_second_taken. reach. Defined.

Lemma session_stopped_reachable : reachable session_stopped.
Proof. unfold session_stopped. reach. Defined.

Lemma worker_drains_witness :
  reachable session_stopped
  /\ (main session_stopped = Stopped ->
      forall ws,
        4 * length (transcription_queue (rec session_stopped)) + 3
        <= length ws ->
        worker (transcription_worker ws session_stopped) = Finished
        /\ transcription_queue (rec (transcription_worker ws session_stopped)) = []
        /\ completed (transcription_worker ws session_stopped)
           = segments (rec session_stopped)).
Proof.
  split; [exact session_stopped_reachable|].
  exact (proj2 (proj2 (proj2
           (@worker_drains session_stopped session_stopped_reachable)))).
Defined.

Example session_stopped_drained :
  let s := transcription_worker (repeat world_no_clip 7) session_stopped in
  worker s = Finished
  /\ map seg_index (completed s) = [0; 1; 2]
  /\ Dict.keys (results (rec s)) = [0].
Proof. vm_compute. repeat split. Qed.

(** C6: when extraction or transcription of the segment in work fails, the
    round ends with the result map as it was (so no entry for the segment's
    index is created), the segment is not put back on the queue, the worker
    is back at its loop condition, and it goes on to take the next queued
    segment. *)
Theorem failed_segment_skipped (s : System) (segment : Segment)
    (w : World) :
  worker s = Transcribing segment ->
  failure w ->
  results (rec (worker_step w s)) = results (rec s)
  /\ Dict.get (results (rec (worker_step w s))) (seg_index segment)
     = Dict.get (results (rec s)) (seg_index segment)
  /\ transcription_queue (rec (worker_step w s))
     = transcription_queue (rec s)
  /\ completed (worker_step w s) = completed s ++ [segment]
  /\ worker (worker_step w s) = AtWhile
  /\ (forall w', worker (worker_step w' (worker_step w s)) <> Finished)
  /\ (forall next rest,
        transcription_queue (rec s) = next :: rest ->
        exists n,
          n <= 3
          /\ forall w',
               worker (transcription_worker (repeat w' n) (worker_step w s))
               = Transcribing next).
Proof.
  intros Hw Hfail.
  assert (Hres : results (rec (worker_step w s)) = results (rec s)).
  { unfold worker_step. rewrite Hw. simpl.
    apply worker_process_dropped. intros c text.
    destruct (transcribe_segment_failure (rec s) segment Hfail) as [E|E];
      rewrite E; discriminate. }
  destruct (worker_process_frame (rec s) segment w) as (Ec & _ & Eq & _).
  split; [exact Hres|]. split; [now rewrite Hres|].
  unfold worker_step at 1 2 3 4. rewrite Hw. simpl.
  split; [exact Eq|]. split; [reflexivity|]. split; [reflexivity|].
  split.
  - intros w'. unfold worker_step. rewrite Hw. simpl.
    destruct (recording (worker_process (rec s) segment w)); discriminate.
  - intros next rest Hq. rewrite <- Eq in Hq.
    destruct (recording (worker_process (rec s) segment w)) eqn:Er.
    + exists 2. split; [lia|]. intros w'. simpl.
      unfold worker_step. rewrite Hw. simpl. rewrite Er. simpl.
      now rewrite Hq.
    + exists 3. split; [lia|]. intros w'. simpl.
      unfold worker_step. rewrite Hw. simpl. rewrite Er. simpl.
      rewrite Hq. simpl. now rewrite Hq.
Qed.

Lemma failed_segment_skipped_witness :
  worker session_second_taken = Transcribing segment_1
  /\ failure world_no_clip
  /\ results (rec (worker_step world_no_clip session_second_taken))
     = results (rec session_second_taken)
  /\ worker (worker_step world_no_clip session_second_taken) = AtWhile.
Proof.
  assert (Hw : worker session_second_taken = Transcribing segment_1)
    by reflexivity.
  assert (Hf : failure world_no_clip)
    by (left; split; [reflexivity|discriminate]).
  split; [exact Hw|]. split; [exact Hf|].
  pose proof (@failed_segment_skipped session_second_taken segment_1
                world_no_clip Hw Hf) as (H1 & _ & _ & _ & H5 & _).
  split; [exact H1|exact H5].
Defined.

(** C9: when the text [transcribe_segment] returns for the segment in work
    is empty (empty after stripping, or cut to nothing by the overlap step),
    the round leaves the result map as it was, as for a failed segment; and
    in every state the two threads can reach, every final result holds a
    non-empty text. *)
Theorem empty_text_dropped (s : System) :
  reachable s ->
  (forall segment w,
     worker s = Transcribing segment ->
     snd (transcribe_segment (rec s) segment w) = Returned (Some []) ->
     results (rec (worker_step w s)) = results (rec s)
     /\ worker (worker_step w s) = AtWhile)
  /\ Forall (fun kv => res_text (snd kv) <> []) (results (rec s)).
Proof.
  intros Hr. split; [|exact (sys_texts (reachable_ok Hr))].
  intros segment w Hw He. unfold worker_step. rewrite Hw. simpl.
  split; [|reflexivity].
  apply worker_process_dropped. intros c text. rewrite He. discriminate.
Qed.

Lemma empty_text_dropped_witness :
  reachable session_second_taken
  /\ worker session_second_taken = Transcribing segment_1
  /\ snd (transcribe_segment (rec session_second_taken) segment_1
            (world_text (lit "a  b c d e a b c d e")))
     = Returned (Some [])
  /\ results
       (rec (worker_step (world_text (lit "a  b c d e a b c d e"))
               session_second_taken))
     = results (rec session_second_taken)
  /\ Forall (fun kv => res_text (snd kv) <> [])
            (results (rec session_second_taken)).
Proof.
  assert (Hw : worker session_second_taken = Transcribing segment_1)
    by reflexivity.
  assert (He : snd (transcribe_segment (rec session_second_taken) segment_1
                      (world_text (lit "a  b c d e a b c d e")))
               = Returned (Some [])) by reflexivity.
  split; [exact session_second_taken_reachable|].
  split; [exact Hw|]. split; [exact He|].
  pose proof (@empty_text_dropped session_second_taken
                session_second_taken_reachable) as [H1 H2].
  split; [exact (proj1 (H1 segment_1 _ Hw He))|exact H2].
Defined.

(** ** The end of the session *)

(** C8: with no final result at all, the end of [run] prints
    "No segments transcribed" and yields no entry: [save_results] is not
    called (nothing is saved, [MsgSaved] is not printed). *)
Theorem run_save_empty (self : LiveRecorder) :
  length (results self) = 0 ->
  run_save self = (print MsgNoSegments self, None)
  /\ console (fst (run_save self)) = console self ++ [MsgNoSegments]
  /\ snd (run_save self) = None.
Proof.
  intros H. unfold run_save.
  destruct (results self); [|discriminate]. simpl. repeat split.
Qed.

Lemma run_save_empty_witness :
  length (results (rec session_silent)) = 0
  /\ worker session_silent = Finished
  /\ run_save (rec session_silent)
     = (print MsgNoSegments (rec session_silent), None).
Proof.
  assert (H : length (results (rec session_silent)) = 0) by reflexivity.
  split; [exact H|]. split; [reflexivity|].
  exact (proj1 (@run_save_empty (rec session_silent) H)).
Defined.

Lemma run_save_some (self : LiveRecorder) :
  results self <> [] ->
  run_save self = (print MsgSaved self, Some (snd (save_results self))).
Proof.
  intros H. unfold run_save.
  destruct (results self) eqn:E; [contradiction|]. reflexivity.
Qed.

(** ** The transcript *)

Lemma minutes_of_numerator (n d : Z) :
  (0 < d)%Z -> (n / (d * 60) = n / d / 60)%Z.
Proof. intros H. rewrite Z.div_div; lia. Qed.

Lemma seconds_of_numerator (n d : Z) :
  (0 < d)%Z ->
  (0 <= n - 60 * (n / (d * 60)) * d
   /\ (n - 60 * (n / (d * 60)) * d) / d = (n / d) mod 60)%Z.
Proof.
  intros H. rewrite minutes_of_numerator by exact H.
  pose proof (Z.div_mod n d ltac:(lia)) as En.
  pose proof (Z.mod_pos_bound n d H) as Hr.
  pose proof (Z.div_mod (n / d) 60 ltac:(lia)) as Eq.
  pose proof (Z.mod_pos_bound (n / d) 60 ltac:(lia)) as Hm.
  set (q := (n / d)%Z) in *. set (r := (n mod d)%Z) in *.
  set (k := (q / 60)%Z) in *. set (m := (q mod 60)%Z) in *.
  assert (E : (n - 60 * k * d = m * d + r)%Z) by nia.
  rewrite E. split; [nia|].
  rewrite Z.div_add_l by lia. rewrite (Z.div_small r d) by lia. lia.
Qed.

Lemma py_int_floordiv_60 (x : Q) :
  py_int (inject_Z (py_floordiv x 60)) = (Qfloor x / 60)%Z.
Proof.
  destruct x as [n d].
  unfold py_int, py_floordiv, Qdiv.
  unfold Qmult, Qinv, Qfloor, inject_Z.
  cbn [Qnum Qden]. rewrite Z.quot_1_r, Z.mul_1_r, Pos2Z.inj_mul.
  apply minutes_of_numerator. lia.
Qed.

Lemma py_int_mod_60 (x : Q) :
  py_int (py_mod x 60) = (Qfloor x mod 60)%Z.
Proof.
  destruct x as [n d].
  unfold py_int, py_mod, Qminus, Qdiv.
  unfold Qplus, Qopp, Qmult, Qinv, Qfloor, inject_Z.
  cbn [Qnum Qden].
  rewrite !Pos.mul_1_r, !Z.mul_1_r, Pos2Z.inj_mul.
  destruct (@seconds_of_numerator n (Z.pos d) ltac:(lia)) as [H0 H1].
  replace (n + - (60 * (n / (Z.pos d * 60))) * Z.pos d)%Z
    with (n - 60 * (n / (Z.pos d * 60)) * Z.pos d)%Z by lia.
  rewrite Z.quot_div_nonneg by lia. exact H1.
Qed.

Lemma format_time_minutes_seconds (seconds : Q) :
  format_time seconds
  = format_02d (Qfloor seconds / 60) ++ lit ":"
    ++ format_02d (Qfloor seconds mod 60).
Proof.
  unfold format_time. now rewrite py_int_floordiv_60, py_int_mod_60.
Qed.

Lemma eqb_true (a b : str) : PyStr.eqb a b = true -> a = b.
Proof.
  unfold PyStr.eqb. now destruct (list_eq_dec N.eq_dec a b).
Qed.

Lemma format_02d_below_100 :
  forallb
    (fun n =>
       PyStr.eqb (format_02d (Z.of_nat n))
         [(48 + N.of_nat (n / 10))%N; (48 + N.of_nat (n mod 10))%N])
    (seq 0 100)
  = true.
Proof. vm_compute. reflexivity. Qed.

(** Below 100, [02d] gives exactly two decimal digits. *)
Lemma format_02d_two_digits (n : Z) :
  (0 <= n < 100)%Z ->
  format_02d n
  = [(48 + Z.to_N (n / 10))%N; (48 + Z.to_N (n mod 10))%N].
Proof.
  intros H.
  pose proof (proj1 (forallb_forall _ _) format_02d_below_100
                (Z.to_nat n)) as E.
  cbv beta in E. rewrite Z2Nat.id in E by lia.
  rewrite (eqb_true _ _ (E ltac:(apply in_seq; lia))).
  f_equal; [|f_equal]; f_equal.
  - apply N2Z.inj.
    rewrite nat_N_Z, Nat2Z.inj_div, Z2Nat.id, Z2N.id; try lia.
    apply Z.div_pos; lia.
  - apply N2Z.inj.
    rewrite nat_N_Z, Nat2Z.inj_mod, Z2Nat.id, Z2N.id; try lia.
    apply Z.mod_pos_bound. lia.
Qed.

Lemma format_time_seconds_digits (seconds : Q) :
  length (format_02d (Qfloor seconds mod 60)) = 2.
Proof.
  rewrite format_02d_two_digits; [reflexivity|].
  pose proof (Z.mod_pos_bound (Qfloor seconds) 60 ltac:(lia)). lia.
Qed.

Lemma insert_sorted_perm (k : nat) (l : list nat) :
  Permutation (insert_sorted k l) (k :: l).
Proof.
  induction l as [|x l IH]; simpl; [reflexivity|].
  destruct (k <=? x); [reflexivity|].
  rewrite IH. apply perm_swap.
Qed.

Lemma sorted_perm (l : list nat) : Permutation (sorted l) l.
Proof.
  induction l as [|x l IH]; simpl; [reflexivity|].
  now rewrite insert_sorted_perm, IH.
Qed.

Lemma insert_sorted_sorted (k : nat) (l : list nat) :
  StronglySorted le l -> StronglySorted le (insert_sorted k l).
Proof.
  induction 1 as [|x l Hl IH Hx]; simpl.
  - repeat constructor.
  - destruct (Nat.leb_spec k x) as [L|L].
    + constructor; [now constructor|].
      constructor; [exact L|].
      eapply Forall_impl; [|exact Hx]. intros y Hy. simpl in Hy. lia.
    + constructor; [exact IH|].
      eapply Permutation_Forall;
        [symmetry; apply insert_sorted_perm|].
      constructor; [lia|exact Hx].
Qed.

Lemma sorted_sorted (l : list nat) : StronglySorted le (sorted l).
Proof.
  induction l as [|x l IH]; simpl; [constructor|].
  now apply insert_sorted_sorted.
Qed.

Lemma sorted_strict (l : list nat) :
  StronglySorted le l -> NoDup l -> StronglySorted lt l.
Proof.
  induction 1 as [|x l Hl IH Hx]; intros Hnd; [constructor|].
  inversion Hnd as [|? ? Hin Hnd']; subst.
  constructor; [now apply IH|].
  rewrite Forall_forall in *. intros y Hy.
  specialize (Hx y Hy). simpl in Hx.
  assert (x <> y) by (intros ->; contradiction). lia.
Qed.

Lemma sorted_unique (l1 l2 : list nat) :
  StronglySorted le l1 -> StronglySorted le l2 ->
  Permutation l1 l2 -> l1 = l2.
Proof.
  intros H1; revert l2.
  induction H1 as [|a l1 Hl1 IH Ha]; intros l2 H2 Hp.
  - now apply Permutation_nil in Hp.
  - destruct H2 as [|b l2 Hl2 Hb].
    + now apply Permutation_sym, Permutation_nil in Hp.
    + rewrite Forall_forall in Ha, Hb.
      assert (Hab : a = b).
      { assert (Ia : In a (b :: l2))
          by (eapply Permutation_in; [exact Hp|now left]).
        assert (Ib : In b (a :: l1))
          by (eapply Permutation_in; [symmetry; exact Hp|now left]).
        destruct Ia as [<-|Ia]; [reflexivity|].
        destruct Ib as [<-|Ib]; [reflexivity|].
        specialize (Ha b Ib). specialize (Hb a Ia). simpl in *. lia. }
      subst b. f_equal. apply IH; [exact Hl2|].
      now apply Permutation_cons_inv in Hp.
Qed.

Lemma sorted_perm_eq (l l' : list nat) :
  Permutation l l' -> sorted l = sorted l'.
Proof.
  intros H. apply sorted_unique; try apply sorted_sorted.
  now rewrite !sorted_perm.
Qed.

Lemma dict_get_in (V : Type) (d : Dict.dict V) (k : nat) (v : V) :
  NoDup (Dict.keys d) -> (Dict.get d k = Some v <-> In (k, v) d).
Proof.
  induction d as [|[k' v'] d IH]; simpl; intros Hnd.
  - split; [discriminate|contradiction].
  - inversion Hnd as [|? ? Hin Hnd']; subst.
    destruct (Nat.eqb_spec k k') as [->|Hne].
    + split.
      * intros [= ->]. now left.
      * intros [[= ->]|Hi]; [reflexivity|].
        exfalso. apply Hin. unfold Dict.keys.
        now apply (in_map fst) in Hi.
    + rewrite (IH Hnd'). split; [now right|].
      intros [[= -> ->]|Hi]; [contradiction|exact Hi].
Qed.

Lemma dict_get_perm (V : Type) (d d' : Dict.dict V) (k : nat) :
  NoDup (Dict.keys d) -> Permutation d' d -> Dict.get d' k = Dict.get d k.
Proof.
  intros Hnd Hp.
  assert (Hnd' : NoDup (Dict.keys d')).
  { eapply Permutation_NoDup; [|exact Hnd].
    unfold Dict.keys. now apply Permutation_map, Permutation_sym. }
  destruct (Dict.get d k) as [v|] eqn:E.
  - apply dict_get_in; [exact Hnd'|].
    apply dict_get_in in E; [|exact Hnd].
    eapply Permutation_in; [symmetry; exact Hp|exact E].
  - destruct (Dict.get d' k) as [v|] eqn:E'; [|reflexivity].
    apply dict_get_in in E'; [|exact Hnd'].
    apply (Permutation_in _ Hp), dict_get_in in E'; [|exact Hnd].
    congruence.
Qed.

Lemma dict_get_key (V : Type) (d : Dict.dict V) (k : nat) :
  In k (Dict.keys d) -> exists v, Dict.get d k = Some v.
Proof.
  induction d as [|[k' v'] d IH]; simpl; [contradiction|].
  intros [->|Hi].
  - rewrite Nat.eqb_refl. now exists v'.
  - destruct (k =? k'); [now exists v'|now apply IH].
Qed.

Lemma transcript_parts_perm (results results' : Dict.dict Result) :
  NoDup (Dict.keys results) ->
  Permutation results' results ->
  transcript_parts results' = transcript_parts results.
Proof.
  intros Hnd Hp. unfold transcript_parts.
  rewrite (@sorted_perm_eq (Dict.keys results') (Dict.keys results))
    by (unfold Dict.keys; now apply Permutation_map).
  apply flat_map_ext. intros k.
  now rewrite (dict_get_perm k Hnd Hp).
Qed.

(** C7: for a result map (each index held once), whatever the order in
    which the entries were written, [transcript_parts] lists the entries in
    strictly ascending index order; an entry gives the line
    "[MM:SS] text", MM and SS being the whole minutes and the remaining whole
    seconds of its content start, each printed with [02d] (two digits,
    zero-padded, below 100), followed by an empty line exactly when the
    entry's type is paragraph; the transcript is these parts joined by
    newlines. *)
Theorem transcript_ascending (results : Dict.dict Result) :
  NoDup (Dict.keys results) ->
  results <> [] ->
  exists ks,
    Permutation ks (Dict.keys results)
    /\ StronglySorted lt ks
    /\ ks <> []
    /\ (forall k, In k ks -> exists r, Dict.get results k = Some r)
    /\ transcript_parts results
       = flat_map
           (fun k =>
              match Dict.get results k with
              | Some r =>
                  (lit "["
                   ++ format_02d (Qfloor (res_start r) / 60)
                   ++ lit ":"
                   ++ format_02d (Qfloor (res_start r) mod 60)
                   ++ lit "] " ++ res_text r)
                  :: match res_type r with
                     | paragraph => [[]]
                     | sentence => []
                     end
              | None => []
              end) ks
    /\ (forall r, length (format_02d (Qfloor (res_start r) mod 60)) = 2)
    /\ (forall n, (0 <= n < 100)%Z ->
          format_02d n
          = [(48 + Z.to_N (n / 10))%N; (48 + Z.to_N (n mod 10))%N])
    /\ full_transcript results = join [NEWLINE] (transcript_parts results)
    /\ (forall results',
          Permutation results' results ->
          transcript_parts results' = transcript_parts results
          /\ full_transcript results' = full_transcript results).
Proof.
  intros Hnd Hne. exists (sorted (Dict.keys results)).
  assert (Hp : Permutation (sorted (Dict.keys results)) (Dict.keys results))
    by apply sorted_perm.
  split; [exact Hp|]. split.
  { apply sorted_strict; [apply sorted_sorted|].
    eapply Permutation_NoDup; [symmetry; exact Hp|exact Hnd]. }
  split.
  { intros E. rewrite E in Hp. apply Permutation_nil in Hp.
    destruct results; [contradiction|discriminate]. }
  split.
  { intros k Hk. apply dict_get_key.
    eapply Permutation_in; [exact Hp|exact Hk]. }
  split.
  { unfold transcript_parts. apply flat_map_ext. intros k.
    destruct (Dict.get results k) as [r|]; [|reflexivity].
    unfold result_parts. rewrite format_time_minutes_seconds.
    f_equal. rewrite <- !app_assoc. reflexivity. }
  split; [intros r; apply format_time_seconds_digits|].
  split; [exact format_02d_two_digits|].
  split; [reflexivity|].
  intros results' Hp'.
  pose proof (transcript_parts_perm Hnd Hp') as E.
  split; [exact E|]. unfold full_transcript. now rewrite E.
Qed.

Lemma transcript_ascending_witness :
  NoDup (Dict.keys three_results)
  /\ three_results <> []
  /\ exists ks,
       Permutation ks (Dict.keys three_results)
       /\ StronglySorted lt ks
       /\ ks <> [].
Proof.
  assert (Hnd : NoDup (Dict.keys three_results)).
  { repeat constructor; simpl; intuition discriminate. }
  assert (Hne : three_results <> []) by discriminate.
  split; [exact Hnd|]. split; [exact Hne|].
  destruct (@transcript_ascending three_results Hnd Hne)
    as (ks & H1 & H2 & H3 & _).
  exists ks. repeat split; assumption.
Defined.

Example three_results_transcript :
  transcript_parts three_results
  = [lit "[00:00] first words"; [];
     lit "[00:03] then more";
     lit "[00:06] and the end"; []]
  /\ full_transcript three_results
     = lit "[00:00] first words" ++ [NEWLINE; NEWLINE]
       ++ lit "[00:03] then more" ++ [NEWLINE]
       ++ lit "[00:06] and the end" ++ [NEWLINE].
Proof. split; vm_compute; reflexivity. Qed.

(** ** The steps of the two threads against the methods *)

Lemma worker_round_steps (s : System) (w : World) :
  worker s = AtGet ->
  rec (worker_step w (worker_step w s)) = worker_round (rec s) w.
Proof.
  intros Hw. unfold worker_round, worker_step at 2. rewrite Hw.
  destruct (transcription_queue (rec s)) as [|segment rest].
  - unfold worker_step. simpl. now destruct (recording (rec s)).
  - reflexivity.
Qed.

Lemma stop_recording_steps (s : System) (t : Q) :
  recording (rec s) = true ->
  rec (main_stop_flag (main_stop_mark t s)) = stop_recording (rec s) t.
Proof.
  intros Hr. unfold stop_recording. now rewrite Hr.
Qed.

Example end_to_end :
  worker session_end_to_end = Finished
  /\ Dict.keys (results (rec session_end_to_end)) = [0; 1; 2]
  /\ transcript_parts (results (rec session_end_to_end))
     = [lit "[00:00] first words"; [];
        lit "[00:03] then more";
        lit "[00:06] and the end"; []]
  /\ snd (run_save (rec session_end_to_end))
     = Some {| entry_transcript :=
                 full_transcript (results (rec session_end_to_end));
               entry_words := 7;
               entry_segments := 3;
               entry_paragraphs := 2 |}.
Proof. vm_compute. repeat split. Qed.

(** * Further properties *)

(** ** Stripping *)

Lemma lstrip_blank_prefix (s : str) :
  exists sp, s = sp ++ lstrip s /\ blank sp.
Proof.
  induction s as [|c s (sp & E & Hsp)]; simpl.
  - exists []. split; [reflexivity|constructor].
  - destruct (isspace c) eqn:Hc.
    + exists (c :: sp). split; [now rewrite E at 1|now constructor].
    + exists []. split; [reflexivity|constructor].
Qed.

Lemma lstrip_head (s : str) :
  lstrip s = [] \/ exists c r, lstrip s = c :: r /\ isspace c = false.
Proof.
  induction s as [|c s IH]; simpl; [now left|].
  destruct (isspace c) eqn:Hc; [exact IH|].
  right. now exists c, s.
Qed.

Lemma lstrip_idem (s : str) : lstrip (lstrip s) = lstrip s.
Proof.
  destruct (lstrip_head s) as [->|(c & r & -> & Hc)]; [reflexivity|].
  simpl. now rewrite Hc.
Qed.

Lemma lstrip_keeps_last (x : str) (c : codepoint) :
  isspace c = false -> exists y, lstrip (x ++ [c]) = y ++ [c].
Proof.
  intros Hc. induction x as [|a x (y & E)]; simpl.
  - rewrite Hc. now exists [].
  - destruct (isspace a); [now exists y|].
    now exists (a :: x).
Qed.

Lemma strip_head (s : str) :
  strip s = [] \/ exists c r, strip s = c :: r /\ isspace c = false.
Proof.
  unfold strip, rstrip.
  destruct (lstrip_head s) as [->|(c & r & -> & Hc)]; [now left|].
  right. simpl rev.
  destruct (@lstrip_keeps_last (rev r) c Hc) as [y ->].
  rewrite rev_unit. now exists c, (rev y).
Qed.

Lemma strip_rev_fixed (s : str) : lstrip (rev (strip s)) = rev (strip s).
Proof.
  unfold strip, rstrip. rewrite rev_involutive. apply lstrip_idem.
Qed.

Lemma strip_idem (s : str) : strip (strip s) = strip s.
Proof.
  pose proof (strip_rev_fixed s) as Hr.
  destruct (strip_head s) as [E|(c & r & E & Hc)].
  - now rewrite E.
  - unfold strip at 1, rstrip.
    replace (lstrip (strip s)) with (strip s)
      by (rewrite E; simpl; now rewrite Hc).
    now rewrite Hr, rev_involutive.
Qed.

Lemma strip_occurs (s : str) : occurs (strip s) s.
Proof.
  destruct (lstrip_blank_prefix s) as (sp & E & _).
  destruct (lstrip_blank_prefix (rev (lstrip s))) as (sp' & E' & _).
  exists (length sp), sp, (rev sp'). split; [|reflexivity].
  rewrite E at 1. f_equal. unfold strip, rstrip.
  rewrite <- rev_app_distr, <- E'. now rewrite rev_involutive.
Qed.

Lemma occurs_trans (a b c : str) : occurs a b -> occurs b c -> occurs a c.
Proof.
  intros (i & p1 & q1 & -> & _) (j & p2 & q2 & -> & _).
  exists (length (p2 ++ p1)), (p2 ++ p1), (q1 ++ q2).
  split; [|reflexivity]. now rewrite <- !app_assoc.
Qed.

Lemma occurs_refl (a : str) : occurs a a.
Proof. exists 0, [], []. split; [|reflexivity]. now rewrite app_nil_r. Qed.

Lemma slice_from_occurs (s : str) (k : Z) : occurs (slice_from s k) s.
Proof.
  unfold slice_from.
  destruct (k <? 0)%Z;
    [set (n := length s - Z.to_nat (- k))|set (n := Z.to_nat k)];
    exists (length (firstn n s)), (firstn n s), [];
    (split; [|reflexivity]); now rewrite app_nil_r, firstn_skipn.
Qed.

Lemma split_from_nonempty (cur s : str) :
  cur <> [] -> split_from cur s <> [].
Proof.
  revert cur; induction s as [|c s IH]; intros cur Hcur; simpl.
  - now destruct cur.
  - destruct (isspace c).
    + now destruct cur.
    + apply IH. now destruct cur.
Qed.

Lemma trimmed_has_word (text : str) :
  trimmed text -> text <> [] -> split text <> [].
Proof.
  unfold trimmed. intros Ht Hne.
  destruct (strip_head text) as [E|(c & r & E & Hc)]; rewrite Ht in E;
    [contradiction|].
  subst text. unfold split. simpl. rewrite Hc.
  now apply split_from_nonempty.
Qed.

(** ** What the overlap step and [transcribe_segment] return *)

Lemma remove_overlap_cases (prev_text full_text : str) :
  remove_overlap prev_text full_text = full_text
  \/ exists k,
       remove_overlap prev_text full_text
       = strip (slice_from full_text k).
Proof.
  unfold remove_overlap.
  destruct (len prev_text >? 20)%Z; [|now left].
  destruct (firstn 5 (split full_text)); [now left|]. cbv zeta.
  match goal with |- context [contains ?a ?b] => destruct (contains a b) end;
    [|now left].
  match goal with |- context [(?a >? 0)%Z] => destruct (a >? 0)%Z end;
    [|now left].
  right. eexists. reflexivity.
Qed.

Lemma remove_overlap_occurs (prev_text full_text : str) :
  occurs (remove_overlap prev_text full_text) full_text.
Proof.
  destruct (remove_overlap_cases prev_text full_text) as [->|[k ->]].
  - apply occurs_refl.
  - eapply occurs_trans; [apply strip_occurs|apply slice_from_occurs].
Qed.

Lemma remove_overlap_trimmed (prev_text full_text : str) :
  trimmed full_text -> trimmed (remove_overlap prev_text full_text).
Proof.
  intros H.
  destruct (remove_overlap_cases prev_text full_text) as [->|[k ->]];
    [exact H|apply strip_idem].
Qed.

Lemma transcribe_segment_returned (self self' : LiveRecorder)
    (segment : Segment) (w : World) (text : str) :
  transcribe_segment self segment w = (self', Returned (Some text)) ->
  exists raw,
    whisper w = JsonText raw
    /\ (text = strip raw
        \/ exists prev_text, text = remove_overlap prev_text (strip raw)).
Proof.
  unfold transcribe_segment, extract_segment_audio. intros H.
  destruct (audio_exists w), (extraction w), (whisper w) as [| | |raw];
    try discriminate; exists raw; (split; [reflexivity|]);
    injection H as _ <-;
    (destruct ((0 <? seg_index segment)
               && Dict.mem (results self) (seg_index segment - 1));
     [|now left]);
    (destruct (Dict.get (results self) (seg_index segment - 1));
     [right; eexists; reflexivity|now left]).
Qed.

Lemma transcribe_segment_returned_trimmed (self self' : LiveRecorder)
    (segment : Segment) (w : World) (text : str) :
  transcribe_segment self segment w = (self', Returned (Some text)) ->
  trimmed text.
Proof.
  intros H.
  destruct (transcribe_segment_returned _ _ _ H)
    as (raw & _ & [->|[prev_text ->]]).
  - apply strip_idem.
  - apply remove_overlap_trimmed, strip_idem.
Qed.

(** X1: a text [transcribe_segment] returns is a contiguous part of the
    text whisper wrote, without whitespace at either end, and no longer than
    it: the overlap step only removes. *)
Theorem transcribe_segment_returns_part (self self' : LiveRecorder)
    (segment : Segment) (w : World) (text : str) :
  transcribe_segment self segment w = (self', Returned (Some text)) ->
  exists raw,
    whisper w = JsonText raw
    /\ occurs text raw
    /\ trimmed text
    /\ length text <= length raw.
Proof.
  intros H.
  pose proof (transcribe_segment_returned_trimmed _ _ _ H) as Ht.
  destruct (transcribe_segment_returned _ _ _ H) as (raw & Hraw & Htext).
  exists raw.
  assert (Ho : occurs text raw).
  { destruct Htext as [->|[prev_text ->]]; [apply strip_occurs|].
    eapply occurs_trans; [apply remove_overlap_occurs|apply strip_occurs]. }
  repeat split; trivial.
  destruct Ho as (i & pre & post & -> & _).
  rewrite !length_app. lia.
Qed.

Lemma transcribe_segment_returns_part_witness :
  transcribe_segment
    (recorder_with_first first_text) segment_1 (world_text doubled_start)
  = (recorder_with_first first_text, Returned (Some (lit "tail")))
  /\ exists raw,
       whisper (world_text doubled_start) = JsonText raw
       /\ occurs (lit "tail") raw
       /\ trimmed (lit "tail")
       /\ length (lit "tail") <= length raw.
Proof.
  assert (H : transcribe_segment
                (recorder_with_first first_text) segment_1
                (world_text doubled_start)
              = (recorder_with_first first_text,
                 Returned (Some (lit "tail")))) by (vm_compute; reflexivity).
  split; [exact H|].
  exact (@transcribe_segment_returns_part _ _ _ _ _ H).
Defined.

(** ** Dictionaries *)

Lemma dict_get_set_same (V : Type) (d : Dict.dict V) (k : nat) (v : V) :
  Dict.get (Dict.set d k v) k = Some v.
Proof.
  induction d as [|[k' v'] d IH]; simpl.
  - now rewrite Nat.eqb_refl.
  - destruct (Nat.eqb_spec k k') as [E|E]; simpl.
    + now rewrite Nat.eqb_refl.
    + destruct (Nat.eqb_spec k k'); [contradiction|exact IH].
Qed.

Lemma dict_get_set_other (V : Type) (d : Dict.dict V) (k k' : nat) (v : V) :
  k' <> k -> Dict.get (Dict.set d k v) k' = Dict.get d k'.
Proof.
  intros Hne. induction d as [|[k0 v0] d IH]; simpl.
  - destruct (Nat.eqb_spec k' k); [contradiction|reflexivity].
  - destruct (Nat.eqb_spec k k0) as [E|E]; simpl.
    + subst k0. destruct (Nat.eqb_spec k' k); [contradiction|reflexivity].
    + destruct (Nat.eqb_spec k' k0); [reflexivity|exact IH].
Qed.

Lemma dict_set_fresh (V : Type) (d : Dict.dict V) (k : nat) (v : V) :
  Forall (fun k' => k' < k) (Dict.keys d) ->
  Dict.set d k v = d ++ [(k, v)].
Proof.
  induction d as [|[k' v'] d IH]; simpl; intros H; [reflexivity|].
  inversion H as [|? ? Hk Hd]; subst.
  destruct (Nat.eqb_spec k k'); [lia|]. now rewrite IH.
Qed.

Lemma dict_get_some_key (V : Type) (d : Dict.dict V) (k : nat) (v : V) :
  Dict.get d k = Some v -> In k (Dict.keys d).
Proof.
  induction d as [|[k' v'] d IH]; simpl; [discriminate|].
  destruct (Nat.eqb_spec k k') as [->|Hne]; [now left|].
  intros H. right. now apply IH.
Qed.

(** ** The segmenter, continued *)

Lemma mark_segment_frame (self : LiveRecorder) (t : Q) (ty : SegmentType) :
  let self' := fst (mark_segment self t ty) in
  let new :=
    if recording self && Qgt_bool t (last_segment_end self + (1 # 2))
    then [{| seg_start :=
               py_max 0 (last_segment_end self - overlap_seconds self);
             seg_end := t;
             seg_type := ty;
             seg_index := length (segments self);
             seg_actual_start := last_segment_end self |}]
    else [] in
  recording self' = recording self
  /\ results self' = results self
  /\ overlap_seconds self' = overlap_seconds self
  /\ segments self' = segments self ++ new
  /\ transcription_queue self' = transcription_queue self ++ new
  /\ previews self' = previews self ++ new.
Proof.
  unfold mark_segment.
  destruct (recording self) eqn:Er; simpl.
  - destruct (Qgt_bool t (last_segment_end self + (1 # 2))); simpl.
    + repeat split.
    + rewrite !app_nil_r. repeat split; trivial.
  - rewrite !app_nil_r. repeat split; trivial.
Qed.

Lemma recorder_ok_started : recorder_ok (start_recording init).
Proof.
  split; simpl.
  - apply segmenter_ok_started.
  - constructor.
  - intros [|x l1] a b l2 H; discriminate.
  - discriminate.
  - reflexivity.
Qed.

Lemma recorder_ok_frame (self self' : LiveRecorder) :
  segments self' = segments self ->
  last_segment_end self' = last_segment_end self ->
  overlap_seconds self' = overlap_seconds self ->
  previews self' = previews self ->
  recorder_ok self -> recorder_ok self'.
Proof.
  intros Es El Eo Ep [[Hi Hc Ho Hs Hp] Hw Ha Hf Hv].
  split; [split|..]; rewrite ?Es, ?El, ?Eo, ?Ep; trivial.
Qed.

Lemma adjacent_snoc (l : list Segment) (s : Segment) :
  adjacent l -> seg_actual_start s = last_mark l -> adjacent (l ++ [s]).
Proof.
  intros Ha Hs l1 a b l2 E.
  destruct l2 as [|x l2 _] using rev_ind.
  - change (l1 ++ [a; b]) with (l1 ++ [a] ++ [b]) in E.
    rewrite app_assoc in E. apply app_inj_tail in E as [-> ->].
    now rewrite Hs, last_mark_snoc.
  - change (l1 ++ a :: b :: l2 ++ [x])
      with (l1 ++ (a :: b :: l2) ++ [x]) in E.
    rewrite app_assoc in E. apply app_inj_tail in E as [-> _].
    now apply (Ha l1 a b l2).
Qed.

Lemma well_formed_new (p t : Q) (ty : SegmentType) (n : nat) :
  (0 <= p)%Q -> (p + (1 # 2) < t)%Q ->
  well_formed
    {| seg_start := py_max 0 (p - 1);
       seg_end := t;
       seg_type := ty;
       seg_index := n;
       seg_actual_start := p |}.
Proof.
  intros Hp Ht. unfold well_formed. simpl. rewrite py_max_Qmax.
  pose proof (Q.le_max_l 0 (p - 1)) as H0.
  pose proof (Q.le_max_r 0 (p - 1)) as H1.
  assert (H2 : (Qmax 0 (p - 1) <= p)%Q) by (apply Q.max_lub; lra).
  repeat split; trivial; lra.
Qed.

Lemma recorder_ok_mark (self : LiveRecorder) (t : Q) (ty : SegmentType) :
  recorder_ok self -> recorder_ok (fst (mark_segment self t ty)).
Proof.
  intros [Hseg Hw Ha Hf Hv].
  pose proof (segmenter_ok_mark t ty Hseg) as Hseg'.
  destruct (mark_segment_frame self t ty) as (_ & _ & _ & Es & _ & Ep).
  destruct Hseg as [Hi Hc Ho Hs Hp].
  destruct (recording self && Qgt_bool t (last_segment_end self + (1 # 2)))
    eqn:Eb.
  - apply andb_true_iff in Eb as [_ Ht]. apply Qgt_bool_iff in Ht.
    split; trivial; rewrite ?Es, ?Ep.
    + apply Forall_app. split; [exact Hw|].
      constructor; [|constructor].
      rewrite Ho. now apply well_formed_new.
    + apply adjacent_snoc; [exact Ha|]. simpl. exact Hc.
    + intros a l E. destruct (segments self) as [|a0 l0] eqn:El.
      * injection E as <- _. simpl. now rewrite Hc.
      * injection E as <- _. now apply (Hf a0 l0).
    + now rewrite Hv.
  - rewrite app_nil_r in Es, Ep.
    split; trivial; rewrite ?Es, ?Ep; trivial.
Qed.

Lemma mark_segment_rejected_frame (self : LiveRecorder) (t : Q)
    (ty : SegmentType) :
  (t <= last_segment_end self + (1 # 2))%Q ->
  mark_segment self t ty = (self, None).
Proof.
  intros H. unfold mark_segment.
  destruct (recording self); simpl; [|reflexivity].
  now rewrite (proj2 (Qgt_bool_false _ _) H).
Qed.

(** X2: a mark that arrives within half a second of an accepted mark is
    dropped and changes nothing, whatever its type; in particular a second
    mark at the same clock reading. *)
Theorem mark_segment_double (self self' : LiveRecorder) (t t' : Q)
    (ty ty' : SegmentType) (segment : Segment) :
  mark_segment self t ty = (self', Some segment) ->
  (t' <= t + (1 # 2))%Q ->
  mark_segment self' t' ty' = (self', None)
  /\ mark_segment self' t ty' = (self', None).
Proof.
  intros E Ht.
  apply mark_segment_accepted in E as (_ & _ & _ & _ & _ & El & _).
  split; apply mark_segment_rejected_frame; rewrite El; [exact Ht|lra].
Qed.

Lemma mark_segment_double_witness :
  mark_segment after_first_mark 6 sentence
  = (after_second_mark, Some segment_1)
  /\ (13 # 2 <= 6 + (1 # 2))%Q
  /\ mark_segment after_second_mark (13 # 2) paragraph
     = (after_second_mark, None)
  /\ mark_segment after_second_mark 6 paragraph = (after_second_mark, None).
Proof.
  assert (E : mark_segment after_first_mark 6 sentence
              = (after_second_mark, Some segment_1)) by reflexivity.
  assert (H : (13 # 2 <= 6 + (1 # 2))%Q) by (unfold Qle; simpl; lia).
  split; [exact E|]. split; [exact H|].
  exact (@mark_segment_double _ _ _ _ sentence paragraph _ E H).
Defined.

(** ** [stop_recording] *)

Lemma stop_recording_off (self : LiveRecorder) (t : Q) :
  recording (stop_recording self t) = false.
Proof.
  unfold stop_recording. destruct (recording self) eqn:E; simpl; trivial.
Qed.

(** X3: [stop_recording] leaves the session inactive, and a second call
    changes nothing: no further final mark, no further message. *)
Theorem stop_recording_idempotent (self : LiveRecorder) (t t' : Q) :
  recording (stop_recording self t) = false
  /\ stop_recording (stop_recording self t) t' = stop_recording self t.
Proof.
  split; [apply stop_recording_off|].
  unfold stop_recording at 1. now rewrite stop_recording_off.
Qed.

Lemma run_marks_off (self : LiveRecorder) (marks : list Mark) :
  recording self = false -> run_marks self marks = self.
Proof.
  intros H. induction marks as [|[t ty] marks IH]; simpl; [reflexivity|].
  unfold mark_step, mark_segment. simpl. rewrite H. simpl. exact IH.
Qed.

Lemma monitor_input_off (self : LiveRecorder) (polls : list Poll) :
  recording self = false -> monitor_input self polls = self.
Proof.
  intros H. destruct polls as [|[ch t] polls]; simpl; [reflexivity|].
  now rewrite H.
Qed.

(** X4: once the session is stopped, marks and keys do nothing: any
    sequence of marks and any keyboard input after [stop_recording] leaves
    the recorder as the stop left it. *)
Theorem stopped_ignores_input (self : LiveRecorder) (t : Q)
    (marks : list Mark) (polls : list Poll) :
  run_marks (stop_recording self t) marks = stop_recording self t
  /\ monitor_input (stop_recording self t) polls = stop_recording self t.
Proof.
  split.
  - apply run_marks_off, stop_recording_off.
  - apply monitor_input_off, stop_recording_off.
Qed.



(** ** [monitor_input] *)

(** X6: only RETURN, newline, the period and Ctrl+C act: rounds that read
    nothing or any other character can be left out of the input without
    changing what the loop does. *)
Theorem monitor_input_other_keys (self : LiveRecorder) (polls : list Poll) :
  monitor_input self polls = monitor_input self (filter is_command polls).
Proof.
  revert self; induction polls as [|[ch t] polls IH]; intros self;
    [reflexivity|].
  destruct (recording self) eqn:Er.
  - unfold is_command at 1. cbn [filter fst monitor_input]. rewrite Er.
    cbn [negb]. destruct ch as [ch|]; [|apply IH].
    destruct ((ch =? RETURN)%N || (ch =? NEWLINE)%N) eqn:E1.
    + cbn [orb monitor_input]. rewrite Er, E1. cbn [negb]. apply IH.
    + destruct (ch =? PERIOD)%N eqn:E2.
      * cbn [orb monitor_input]. rewrite Er, E1, E2. cbn [negb]. apply IH.
      * destruct (ch =? CTRL_C)%N eqn:E3.
        -- cbn [orb monitor_input]. now rewrite Er, E1, E2, E3.
        -- cbn [orb]. apply IH.
  - now rewrite !monitor_input_off.
Qed.

Lemma monitor_input_marks (self : LiveRecorder) (polls : list Poll) :
  Forall (fun p => is_stop p = false) polls ->
  monitor_input self polls = run_marks self (flat_map mark_of polls).
Proof.
  intros H; revert self.
  induction H as [|[ch t] polls Hp _ IH]; intros self; [reflexivity|].
  destruct (recording self) eqn:Er;
    [|now rewrite run_marks_off, monitor_input_off].
  cbn [monitor_input flat_map]. rewrite Er. cbn [negb].
  unfold run_marks. rewrite fold_left_app. fold (run_marks self).
  unfold mark_of, is_stop in *. cbn [fst snd] in *.
  destruct ch as [ch|]; [|apply IH].
  destruct ((ch =? RETURN)%N || (ch =? NEWLINE)%N); [apply IH|].
  destruct (ch =? PERIOD)%N; [apply IH|].
  rewrite Hp. apply IH.
Qed.

(** X7: up to the first Ctrl+C the loop is the sequence of marks its keys
    ask for (RETURN and newline: paragraph; period: sentence), each at the
    clock reading of its round; at the first Ctrl+C it calls
    [stop_recording] and reads no further input. *)
Theorem monitor_input_until_stop (self : LiveRecorder)
    (before after : list Poll) (t : Q) :
  Forall (fun p => is_stop p = false) before ->
  monitor_input self before = run_marks self (flat_map mark_of before)
  /\ monitor_input self (before ++ (Some CTRL_C, t) :: after)
     = stop_recording (run_marks self (flat_map mark_of before)) t.
Proof.
  intros H. split; [now apply monitor_input_marks|].
  rewrite <- (monitor_input_marks self H). clear - H. revert self.
  induction H as [|[ch now] polls Hp _ IH]; intros self.
  - cbn [app monitor_input]. unfold stop_recording.
    now destruct (recording self).
  - destruct (recording self) eqn:Er.
    + cbn [app monitor_input]. rewrite Er. cbn [negb].
      unfold is_stop in Hp. cbn [fst] in Hp.
      destruct ch as [ch|]; [|apply IH].
      destruct ((ch =? RETURN)%N || (ch =? NEWLINE)%N); [apply IH|].
      destruct (ch =? PERIOD)%N; [apply IH|].
      rewrite Hp. apply IH.
    + rewrite !monitor_input_off by exact Er.
      unfold stop_recording. now rewrite Er.
Qed.

Lemma monitor_input_until_stop_witness :
  Forall (fun p => is_stop p = false)
    [(Some RETURN, 3%Q); (None, 4%Q); (Some 120%N, 5%Q); (Some PERIOD, 6%Q)]
  /\ monitor_input (start_recording init)
       ([(Some RETURN, 3%Q); (None, 4%Q); (Some 120%N, 5%Q);
         (Some PERIOD, 6%Q)]
        ++ (Some CTRL_C, 10%Q) :: [(Some RETURN, 12%Q)])
     = stop_recording after_second_mark 10.
Proof.
  assert (H : Forall (fun p => is_stop p = false)
                [(Some RETURN, 3%Q); (None, 4%Q); (Some 120%N, 5%Q);
                 (Some PERIOD, 6%Q)])
    by (repeat constructor).
  split; [exact H|].
  exact (proj2 (@monitor_input_until_stop (start_recording init) _
                  [(Some RETURN, 12%Q)] 10 H)).
Defined.

Lemma reachable_recording (s : System) :
  reachable s -> main s = Monitoring -> recording (rec s) = true.
Proof.
  intros Hr Hm. pose proof (sys_flag (reachable_ok Hr)) as H.
  now rewrite Hm in H.
Qed.

Lemma monitor_input_steps (s : System) (polls : list Poll) :
  reachable s ->
  main s = Monitoring ->
  exists s',
    reachable s'
    /\ rec s' = monitor_input (rec s) polls
    /\ worker s' = worker s
    /\ completed s' = completed s.
Proof.
  intros Hr Hm; revert s Hr Hm.
  induction polls as [|[ch t] polls IH]; intros s Hr Hm.
  - now exists s.
  - pose proof (reachable_recording Hr Hm) as Er.
    cbn [monitor_input]. rewrite Er. cbn [negb].
    assert (Hmark : forall ty,
               exists s',
                 reachable s'
                 /\ rec s'
                    = monitor_input (fst (mark_segment (rec s) t ty)) polls
                 /\ worker s' = worker s
                 /\ completed s' = completed s).
    { intros ty.
      destruct (IH (main_mark t ty s)) as (s' & H1 & H2 & H3 & H4).
      - eapply reach_step; [exact Hr|now apply step_mark].
      - exact Hm.
      - now exists s'. }
    destruct ch as [ch|]; [|now apply IH].
    destruct ((ch =? RETURN)%N || (ch =? NEWLINE)%N); [apply Hmark|].
    destruct (ch =? PERIOD)%N; [apply Hmark|].
    destruct (ch =? CTRL_C)%N; [|now apply IH].
    exists (main_stop_flag (main_stop_mark t s)). split; [|split].
    + eapply reach_step;
        [eapply reach_step; [exact Hr|now apply step_stop_mark]|].
      now apply step_stop_flag.
    + now apply stop_recording_steps.
    + now split.
Qed.

Lemma monitor_input_reachable (polls : list Poll) :
  exists s,
    reachable s
    /\ rec s = monitor_input (start_recording init) polls
    /\ worker s = AtWhile
    /\ completed s = [].
Proof.
  destruct (@monitor_input_steps initial polls reach_initial eq_refl)
    as (s & H1 & H2 & H3 & H4).
  now exists s.
Qed.

(** ** The pipeline of the two threads *)

Lemma transcribe_segment_frame_more (self : LiveRecorder)
    (segment : Segment) (w : World) :
  let self' := fst (transcribe_segment self segment w) in
  overlap_seconds self' = overlap_seconds self
  /\ previews self' = previews self.
Proof.
  unfold transcribe_segment, extract_segment_audio.
  destruct (audio_exists w), (extraction w), (whisper w); simpl; tauto.
Qed.

Lemma worker_process_frame_more (self : LiveRecorder) (segment : Segment)
    (w : World) :
  let self' := worker_process self segment w in
  overlap_seconds self' = overlap_seconds self
  /\ previews self' = previews self.
Proof.
  unfold worker_process.
  pose proof (transcribe_segment_frame_more self segment w) as H.
  destruct (transcribe_segment self segment w) as [self1 [[[|c text]|]|]];
    simpl in *; tauto.
Qed.

Lemma recorder_ok_worker_process (self : LiveRecorder) (segment : Segment)
    (w : World) :
  recorder_ok self -> recorder_ok (worker_process self segment w).
Proof.
  destruct (worker_process_frame self segment w) as (_ & Es & _ & El).
  destruct (worker_process_frame_more self segment w) as (Eo & Ep).
  now apply recorder_ok_frame.
Qed.

Lemma worker_process_trimmed (self : LiveRecorder) (segment : Segment)
    (w : World) (c : codepoint) (text : str) :
  snd (transcribe_segment self segment w) = Returned (Some (c :: text)) ->
  trimmed (c :: text).
Proof.
  intros H.
  destruct (transcribe_segment self segment w) as [self1 res] eqn:E.
  simpl in H. subst res.
  exact (@transcribe_segment_returned_trimmed _ _ _ _ _ E).
Qed.

Lemma seq_split (l1 l2 : list nat) (x st n : nat) :
  l1 ++ x :: l2 = seq st n ->
  x = st + length l1 /\ Forall (fun y => y < x) l1.
Proof.
  revert st n; induction l1 as [|a l1 IH]; intros st n E.
  - destruct n as [|n]; [discriminate|]. injection E as -> _.
    split; [simpl; lia|constructor].
  - destruct n as [|n]; [discriminate|]. injection E as -> E.
    destruct (IH _ _ E) as [-> Hl]. split; [simpl; lia|].
    constructor; [lia|exact Hl].
Qed.

Lemma sorted_snoc (l : list nat) (x : nat) :
  StronglySorted lt l -> Forall (fun y => y < x) l ->
  StronglySorted lt (l ++ [x]).
Proof.
  induction 1 as [|a l Hl IH Ha]; intros Hx; simpl.
  - repeat constructor.
  - inversion Hx as [|? ? Hax Hlx]; subst.
    constructor; [now apply IH|].
    apply Forall_app. split; [exact Ha|now constructor].
Qed.

Lemma StronglySorted_NoDup_lt (l : list nat) :
  StronglySorted lt l -> NoDup l.
Proof.
  induction 1 as [|a l Hl IH Ha]; constructor; [|exact IH].
  intros Hin. rewrite Forall_forall in Ha. specialize (Ha a Hin). lia.
Qed.

(** The keys already written are below the index of the segment in work. *)
Lemma in_flight_fresh (s : System) (segment : Segment) :
  system_ok s -> pipeline_ok s ->
  worker s = Transcribing segment ->
  seg_index segment = length (completed s)
  /\ Forall (fun seg => seg_index seg < seg_index segment) (completed s)
  /\ Forall (fun k => k < seg_index segment)
            (Dict.keys (results (rec s))).
Proof.
  intros [Hq Ht _ _ _ _] [[[Hi _ _ _ _] _ _ _ _] Hres _ _] Hw.
  rewrite Hw in Ht. simpl in Ht.
  rewrite Hq, Ht, <- !app_assoc, !map_app in Hi. simpl in Hi.
  destruct (@seq_split _ _ _ _ _ Hi) as [Hx Hlt].
  rewrite length_map in Hx. simpl in Hx.
  assert (Hc : Forall (fun seg => seg_index seg < seg_index segment)
                      (completed s)).
  { rewrite Forall_forall in *. intros seg Hin.
    apply Hlt. now apply in_map. }
  split; [exact Hx|]. split; [exact Hc|].
  rewrite Forall_forall in *. intros k Hk.
  destruct (@dict_get_key _ _ _ Hk) as [r Hr].
  destruct (Hres k r Hr) as (seg & Hin & <- & _).
  now apply Hc.
Qed.

Lemma pipeline_ok_initial : pipeline_ok initial.
Proof.
  split; simpl.
  - apply recorder_ok_started.
  - discriminate.
  - constructor.
  - constructor.
Qed.

Lemma pipeline_ok_same_results (s s' : System) :
  pipeline_ok s ->
  recorder_ok (rec s') ->
  results (rec s') = results (rec s) ->
  completed s' = completed s ->
  pipeline_ok s'.
Proof.
  intros [_ Hres Hk Ht] Hrec Er Ec.
  split; rewrite ?Er, ?Ec; trivial.
Qed.

Lemma pipeline_ok_worker_step (s : System) (w : World) :
  system_ok s -> pipeline_ok s -> pipeline_ok (worker_step w s).
Proof.
  intros Hsys Hp. pose proof Hp as [Hrec Hres Hk Ht].
  unfold worker_step.
  destruct (worker s) as [| | |segment|] eqn:Ew.
  - destruct (recording (rec s));
      now apply (@pipeline_ok_same_results s _ Hp).
  - destruct (transcription_queue (rec s));
      now apply (@pipeline_ok_same_results s _ Hp).
  - destruct (transcription_queue (rec s)) as [|segment rest];
      [now apply (@pipeline_ok_same_results s _ Hp)|].
    apply (@pipeline_ok_same_results s _ Hp); trivial. simpl.
    now apply (recorder_ok_frame (self := rec s)).
  - destruct (in_flight_fresh Hsys Hp Ew) as (_ & _ & Hfresh).
    destruct (worker_process_results (rec s) segment w)
      as [E|(c & text & Etext & E)].
    + split; simpl; rewrite ?E; trivial.
      * now apply recorder_ok_worker_process.
      * intros k r Hr. destruct (Hres k r Hr) as (seg & Hin & Hfrom).
        exists seg. split; [apply in_or_app; now left|exact Hfrom].
    + rewrite dict_set_fresh in E by exact Hfresh.
      split; simpl; rewrite ?E.
      * now apply recorder_ok_worker_process.
      * intros k r Hr.
        destruct (Dict.get (results (rec s)) k) as [r0|] eqn:Hold.
        -- assert (r = r0).
           { apply dict_get_in in Hr.
             - apply in_app_or in Hr as [Hr|[Hr|[]]].
               + apply dict_get_in in Hr;
                   [congruence|].
                 eapply StronglySorted_NoDup_lt; exact Hk.
               + injection Hr as <- <-.
                 apply dict_get_some_key in Hold.
                 rewrite Forall_forall in Hfresh.
                 specialize (Hfresh _ Hold). lia.
             - unfold Dict.keys. rewrite map_app. simpl.
               eapply StronglySorted_NoDup_lt.
               apply sorted_snoc; [exact Hk|exact Hfresh]. }
           subst r0. destruct (Hres k r Hold) as (seg & Hin & Hfrom).
           exists seg. split; [apply in_or_app; now left|exact Hfrom].
        -- assert (Hkr : (k, r) = (seg_index segment,
                                   {| res_text := c :: text;
                                      res_start := seg_actual_start segment;
                                      res_end := seg_end segment;
                                      res_type := seg_type segment |})).
           { apply dict_get_in in Hr.
             - apply in_app_or in Hr as [Hr|[Hr|[]]]; [|now symmetry].
               apply dict_get_in in Hr; [congruence|].
               eapply StronglySorted_NoDup_lt; exact Hk.
             - unfold Dict.keys. rewrite map_app. simpl.
               eapply StronglySorted_NoDup_lt.
               apply sorted_snoc; [exact Hk|exact Hfresh]. }
           injection Hkr as -> ->.
           exists segment. split; [apply in_or_app; right; now left|].
           repeat split.
      * unfold Dict.keys. rewrite map_app. simpl.
        apply sorted_snoc; [exact Hk|exact Hfresh].
      * apply Forall_app. split; [exact Ht|].
        constructor; [|constructor]. simpl.
        now apply (@worker_process_trimmed (rec s) segment w c text).
  - exact Hp.
Qed.

Lemma pipeline_ok_step (s s' : System) :
  system_ok s -> pipeline_ok s -> step s s' -> pipeline_ok s'.
Proof.
  intros Hsys Hp Hstep. pose proof Hp as [Hrec _ _ _].
  destruct Hstep as [s t ty Hm|s t Hm|s Hm|s w Hw].
  - apply (@pipeline_ok_same_results s _ Hp); trivial; simpl.
    + now apply recorder_ok_mark.
    + apply mark_segment_frame.
  - apply (@pipeline_ok_same_results s _ Hp); trivial; simpl.
    + apply recorder_ok_mark.
      now apply (recorder_ok_frame (self := rec s)).
    + apply (mark_segment_frame (print MsgStopping (rec s))).
  - apply (@pipeline_ok_same_results s _ Hp); trivial; simpl.
    now apply (recorder_ok_frame (self := rec s)).
  - now apply pipeline_ok_worker_step.
Qed.

Lemma reachable_pipeline (s : System) : reachable s -> pipeline_ok s.
Proof.
  induction 1 as [|s s' Hr IH Hstep]; [exact pipeline_ok_initial|].
  exact (pipeline_ok_step (reachable_ok Hr) IH Hstep).
Qed.

(** X8: every segment a session creates is well formed: its window
    starts at [max(0, content start - 1)], so at most one second before its
    content and never before the session, and its content is longer than
    half a second. *)
Theorem session_segments_well_formed (s : System) :
  reachable s ->
  Forall
    (fun x =>
       (0 <= seg_start x)%Q
       /\ (seg_start x <= seg_actual_start x)%Q
       /\ (seg_actual_start x - seg_start x <= 1)%Q
       /\ seg_start x = Qmax 0 (seg_actual_start x - 1)
       /\ (seg_actual_start x + (1 # 2) < seg_end x)%Q)
    (segments (rec s)).
Proof.
  intros Hr. exact (rok_well_formed (pipe_recorder (reachable_pipeline Hr))).
Qed.

Lemma session_segments_well_formed_witness :
  reachable session_stopped
  /\ Forall
       (fun x =>
          (0 <= seg_start x)%Q
          /\ (seg_start x <= seg_actual_start x)%Q
          /\ (seg_actual_start x - seg_start x <= 1)%Q
          /\ seg_start x = Qmax 0 (seg_actual_start x - 1)
          /\ (seg_actual_start x + (1 # 2) < seg_end x)%Q)
       (segments (rec session_stopped)).
Proof.
  split; [exact session_stopped_reachable|].
  exact (@session_segments_well_formed session_stopped
           session_stopped_reachable).
Defined.

(** X9: the contents of a session's segments tile the timeline: the first
    content starts at 0, each next content starts where the one before
    ended, and the cursor [last_segment_end] is the end of the last (0
    before the first). *)
Theorem session_contents_tile (s : System) :
  reachable s ->
  (forall a l, segments (rec s) = a :: l -> seg_actual_start a = 0%Q)
  /\ (forall l1 a b l2,
        segments (rec s) = l1 ++ a :: b :: l2 ->
        seg_actual_start b = seg_end a)
  /\ (forall l a,
        segments (rec s) = l ++ [a] -> last_segment_end (rec s) = seg_end a)
  /\ (segments (rec s) = [] -> last_segment_end (rec s) = 0%Q).
Proof.
  intros Hr. destruct (reachable_pipeline Hr) as [[Hseg _ Ha Hf _] _ _ _].
  pose proof (ok_cursor Hseg) as Hc.
  split; [exact Hf|]. split; [exact Ha|]. split.
  - intros l a E. now rewrite Hc, E, last_mark_snoc.
  - intros E. now rewrite Hc, E.
Qed.

Lemma session_contents_tile_witness :
  reachable session_stopped
  /\ (forall l1 a b l2,
        segments (rec session_stopped) = l1 ++ a :: b :: l2 ->
        seg_actual_start b = seg_end a).
Proof.
  split; [exact session_stopped_reachable|].
  exact (proj1 (proj2 (@session_contents_tile session_stopped
                         session_stopped_reachable))).
Defined.

(** X10: the clips asked of ffmpeg.  Every clip covers the content of its
    segment, and the clips of two consecutive segments overlap by more than
    one second and at most one and a half. *)
Theorem extraction_windows_overlap (s : System) :
  reachable s ->
  Forall
    (fun x =>
       (fst (extraction_window x) <= seg_actual_start x)%Q
       /\ (seg_end x < snd (extraction_window x))%Q)
    (segments (rec s))
  /\ (forall l1 a b l2,
        segments (rec s) = l1 ++ a :: b :: l2 ->
        (1 < snd (extraction_window a) - fst (extraction_window b))%Q
        /\ (snd (extraction_window a) - fst (extraction_window b)
            <= 3 # 2)%Q).
Proof.
  intros Hr. destruct (reachable_pipeline Hr) as [[_ Hw Ha _ _] _ _ _].
  split.
  - eapply Forall_impl; [|exact Hw].
    intros x (H0 & H1 & H2 & H3 & H4). simpl. split; lra.
  - intros l1 a b l2 E. pose proof (Ha _ _ _ _ E) as Hab.
    rewrite Forall_forall in Hw.
    assert (Wa : well_formed a)
      by (apply Hw; rewrite E; apply in_elt).
    assert (Wb : well_formed b).
    { apply Hw. rewrite E. apply in_or_app. right. right. now left. }
    destruct Wa as (A0 & A1 & A2 & A3 & A4).
    destruct Wb as (B0 & B1 & B2 & B3 & B4).
    simpl. rewrite Hab in *.
    assert (Hlt : (seg_start b < seg_end a - (1 # 2))%Q).
    { rewrite B3. apply Q.max_lub_lt; lra. }
    split; lra.
Qed.

Lemma extraction_windows_overlap_witness :
  reachable session_stopped
  /\ (forall l1 a b l2,
        segments (rec session_stopped) = l1 ++ a :: b :: l2 ->
        (1 < snd (extraction_window a) - fst (extraction_window b))%Q
        /\ (snd (extraction_window a) - fst (extraction_window b)
            <= 3 # 2)%Q).
Proof.
  split; [exact session_stopped_reachable|].
  exact (proj2 (@extraction_windows_overlap session_stopped
                  session_stopped_reachable)).
Defined.

(** X11: the pipeline keeps the order of the marks and loses nothing: at
    any moment the segments created are those whose processing ended, then
    the one in work if any, then the queue, in this order; and one preview
    was started per segment. *)
Theorem pipeline_in_order (s : System) :
  reachable s ->
  segments (rec s)
  = completed s ++ in_flight (worker s) ++ transcription_queue (rec s)
  /\ previews (rec s) = segments (rec s).
Proof.
  intros Hr. destruct (reachable_ok Hr) as [Hq Ht _ _ _ _]. split.
  - now rewrite Hq, Ht, app_assoc.
  - exact (rok_previews (pipe_recorder (reachable_pipeline Hr))).
Qed.

Lemma pipeline_in_order_witness :
  reachable session_second_taken
  /\ segments (rec session_second_taken)
     = completed session_second_taken
       ++ in_flight (worker session_second_taken)
       ++ transcription_queue (rec session_second_taken)
  /\ previews (rec session_second_taken)
     = segments (rec session_second_taken).
Proof.
  split; [exact session_second_taken_reachable|].
  exact (@pipeline_in_order session_second_taken
           session_second_taken_reachable).
Defined.

(** ** The final results *)

Lemma reachable_worker_step (s : System) (w : World) :
  reachable s -> reachable (worker_step w s).
Proof.
  intros Hr. destruct (worker s) eqn:Ew;
    try (eapply reach_step; [exact Hr|apply step_worker; congruence]).
  unfold worker_step. now rewrite Ew.
Qed.

Lemma reachable_transcription_worker (ws : list World) (s : System) :
  reachable s -> reachable (transcription_worker ws s).
Proof.
  revert s; induction ws as [|w ws IH]; intros s Hr; [exact Hr|].
  simpl. apply IH. now apply reachable_worker_step.
Qed.

Lemma session_end_to_end_reachable : reachable session_end_to_end.
Proof.
  unfold session_end_to_end. apply reachable_transcription_worker. reach.
Defined.

(** X12: every final result is the result of a segment whose processing
    ended: it is stored under that segment's index, which is below the
    number of segments created, and holds the segment's content start, its
    end and its type; so its start is not negative and more than half a
    second before its end. *)
Theorem results_come_from_segments (s : System) (k : nat) (r : Result) :
  reachable s ->
  Dict.get (results (rec s)) k = Some r ->
  exists segment,
    In segment (completed s)
    /\ In segment (segments (rec s))
    /\ seg_index segment = k
    /\ res_start r = seg_actual_start segment
    /\ res_end r = seg_end segment
    /\ res_type r = seg_type segment
    /\ k < length (segments (rec s))
    /\ (0 <= res_start r)%Q
    /\ (res_start r + (1 # 2) < res_end r)%Q.
Proof.
  intros Hr Hget.
  destruct (reachable_pipeline Hr) as [[Hseg Hw _ _ _] Hres _ _].
  destruct (reachable_ok Hr) as [Hq Ht _ _ _ _].
  destruct (Hres k r Hget) as (segment & Hin & Hi & Hs & He & Hty).
  assert (Hin' : In segment (segments (rec s))).
  { rewrite Hq, Ht. apply in_or_app. left. apply in_or_app. now left. }
  exists segment. repeat split; trivial.
  - assert (H : In k (map seg_index (segments (rec s))))
      by (rewrite <- Hi; now apply in_map).
    rewrite (ok_indices Hseg) in H. apply in_seq in H. lia.
  - rewrite Forall_forall in Hw.
    destruct (Hw _ Hin') as (H0 & H1 & _). rewrite Hs. lra.
  - rewrite Forall_forall in Hw.
    destruct (Hw _ Hin') as (_ & _ & _ & _ & H4). now rewrite Hs, He.
Qed.

Lemma results_come_from_segments_witness :
  reachable session_second_taken
  /\ Dict.get (results (rec session_second_taken)) 0
     = Some (result_at first_text 0 3 paragraph)
  /\ exists segment,
       In segment (completed session_second_taken)
       /\ In segment (segments (rec session_second_taken))
       /\ seg_index segment = 0.
Proof.
  assert (H : Dict.get (results (rec session_second_taken)) 0
              = Some (result_at first_text 0 3 paragraph)) by reflexivity.
  split; [exact session_second_taken_reachable|]. split; [exact H|].
  destruct (@results_come_from_segments session_second_taken 0 _
              session_second_taken_reachable H)
    as (segment & H1 & H2 & H3 & _).
  exists segment. repeat split; assumption.
Defined.

Lemma sorted_fixed (l : list nat) : StronglySorted lt l -> sorted l = l.
Proof.
  intros H. apply sorted_unique.
  - apply sorted_sorted.
  - clear - H. induction H as [|a l Hl IH Ha]; constructor; [exact IH|].
    eapply Forall_impl; [|exact Ha]. intros y Hy. simpl in Hy. lia.
  - apply sorted_perm.
Qed.

(** X13: the final results are written in index order: at any moment the
    keys of the result map, in the order of their writing, are strictly
    ascending, so no index is held twice and [sorted] leaves them as they
    are. *)
Theorem results_keys_ascending (s : System) :
  reachable s ->
  StronglySorted lt (Dict.keys (results (rec s)))
  /\ NoDup (Dict.keys (results (rec s)))
  /\ sorted (Dict.keys (results (rec s))) = Dict.keys (results (rec s)).
Proof.
  intros Hr. pose proof (pipe_keys (reachable_pipeline Hr)) as Hk.
  split; [exact Hk|].
  split; [now apply StronglySorted_NoDup_lt|now apply sorted_fixed].
Qed.

Lemma results_keys_ascending_witness :
  reachable session_end_to_end
  /\ NoDup (Dict.keys (results (rec session_end_to_end))).
Proof.
  split; [exact session_end_to_end_reachable|].
  exact (proj1 (proj2 (@results_keys_ascending session_end_to_end
                         session_end_to_end_reachable))).
Defined.

Lemma step_results (s s' : System) :
  step s s' ->
  results (rec s') = results (rec s)
  \/ exists segment c text,
       worker s = Transcribing segment
       /\ results (rec s')
          = Dict.set (results (rec s)) (seg_index segment)
              {| res_text := c :: text;
                 res_start := seg_actual_start segment;
                 res_end := seg_end segment;
                 res_type := seg_type segment |}.
Proof.
  intros [s0 t ty Hm|s0 t Hm|s0 Hm|s0 w Hw]; simpl.
  - left. apply mark_segment_frame.
  - left. apply (mark_segment_frame (print MsgStopping (rec s0))).
  - now left.
  - unfold worker_step.
    destruct (worker s0) as [| | |segment|] eqn:Ew; try (now left).
    + left. now destruct (recording (rec s0)).
    + left. now destruct (transcription_queue (rec s0)).
    + left. now destruct (transcription_queue (rec s0)).
    + simpl.
      destruct (worker_process_results (rec s0) segment w)
        as [E|(c & text & _ & E)]; [now left|].
      right. now exists segment, c, text.
Qed.

(** X14: a final result is written once: whatever either thread does
    next, an entry of the result map stays under its index as it is. *)
Theorem results_written_once (s s' : System) (k : nat) (r : Result) :
  reachable s ->
  step s s' ->
  Dict.get (results (rec s)) k = Some r ->
  Dict.get (results (rec s')) k = Some r.
Proof.
  intros Hr Hstep Hget.
  destruct (step_results Hstep) as [->|(segment & c & text & Ew & ->)];
    [exact Hget|].
  destruct (in_flight_fresh (reachable_ok Hr) (reachable_pipeline Hr) Ew)
    as (_ & _ & Hfresh).
  rewrite dict_get_set_other; [exact Hget|].
  apply dict_get_some_key in Hget.
  rewrite Forall_forall in Hfresh. specialize (Hfresh _ Hget). lia.
Qed.

Lemma results_written_once_witness :
  reachable session_second_taken
  /\ step session_second_taken
       (worker_step (world_text (lit " then more")) session_second_taken)
  /\ Dict.get (results (rec session_second_taken)) 0
     = Some (result_at first_text 0 3 paragraph)
  /\ Dict.get
       (results
          (rec (worker_step (world_text (lit " then more"))
                  session_second_taken))) 0
     = Some (result_at first_text 0 3 paragraph).
Proof.
  assert (Hs : step session_second_taken
                 (worker_step (world_text (lit " then more"))
                    session_second_taken))
    by (apply step_worker; vm_compute; discriminate).
  assert (H : Dict.get (results (rec session_second_taken)) 0
              = Some (result_at first_text 0 3 paragraph)) by reflexivity.
  split; [exact session_second_taken_reachable|].
  split; [exact Hs|]. split; [exact H|].
  exact (@results_written_once _ _ 0 _ session_second_taken_reachable Hs H).
Defined.

Lemma word_count_at_least (results : Dict.dict Result) :
  Forall (fun kv => split (res_text (snd kv)) <> []) results ->
  length results <= word_count results.
Proof.
  unfold word_count, Dict.values.
  induction 1 as [|[k r] l Hr _ IH]; simpl in *; [lia|].
  destruct (split (res_text r)); [contradiction|]. simpl. lia.
Qed.

(** X15: every final text is without whitespace at either end and holds
    at least one word; so the word count [save_results] writes is at least
    its segment count. *)
Theorem results_trimmed_with_words (s : System) :
  reachable s ->
  Forall
    (fun kv =>
       strip (res_text (snd kv)) = res_text (snd kv)
       /\ split (res_text (snd kv)) <> [])
    (results (rec s))
  /\ entry_segments (snd (save_results (rec s)))
     <= entry_words (snd (save_results (rec s))).
Proof.
  intros Hr.
  pose proof (pipe_trimmed (reachable_pipeline Hr)) as Ht.
  pose proof (sys_texts (reachable_ok Hr)) as Hn.
  assert (H : Forall
                (fun kv =>
                   strip (res_text (snd kv)) = res_text (snd kv)
                   /\ split (res_text (snd kv)) <> [])
                (results (rec s))).
  { rewrite Forall_forall in *. intros kv Hin.
    split; [exact (Ht kv Hin)|].
    apply trimmed_has_word; [exact (Ht kv Hin)|exact (Hn kv Hin)]. }
  split; [exact H|]. simpl.
  apply word_count_at_least.
  eapply Forall_impl; [|exact H]. now intros kv [_ Hw].
Qed.

Lemma results_trimmed_with_words_witness :
  reachable session_end_to_end
  /\ entry_segments (snd (save_results (rec session_end_to_end)))
     <= entry_words (snd (save_results (rec session_end_to_end))).
Proof.
  split; [exact session_end_to_end_reachable|].
  exact (proj2 (@results_trimmed_with_words session_end_to_end
                  session_end_to_end_reachable)).
Defined.

(** X16: processing a segment writes at most the result of its own index:
    every other entry of the result map, the segments, the queue, the
    cursor and the recording flag are left as they were, for every outcome
    of extraction and transcription. *)
Theorem worker_process_own_index (self : LiveRecorder) (segment : Segment)
    (w : World) :
  (forall k,
     k <> seg_index segment ->
     Dict.get (results (worker_process self segment w)) k
     = Dict.get (results self) k)
  /\ recording (worker_process self segment w) = recording self
  /\ segments (worker_process self segment w) = segments self
  /\ transcription_queue (worker_process self segment w)
     = transcription_queue self
  /\ last_segment_end (worker_process self segment w)
     = last_segment_end self.
Proof.
  split; [|apply worker_process_frame].
  intros k Hk.
  destruct (worker_process_results self segment w)
    as [->|(c & text & _ & ->)]; [reflexivity|].
  now apply dict_get_set_other.
Qed.

(** ** [save_results], continued *)

Lemma filter_length_perm (A : Type) (f : A -> bool) (l l' : list A) :
  Permutation l l' -> length (filter f l) = length (filter f l').
Proof.
  induction 1 as [|x l l' _ IH|x y l|l l' l'' _ IH1 _ IH2]; simpl.
  - reflexivity.
  - destruct (f x); simpl; now rewrite IH.
  - destruct (f x), (f y); reflexivity.
  - now rewrite IH1.
Qed.

(** X17: what [save_results] writes does not depend on the order in which
    the results were written: for two result maps with the same entries
    (each index held once) the transcript, the word count, the segment
    count and the paragraph count are the same. *)
Theorem save_results_order_independent (self self' : LiveRecorder) :
  NoDup (Dict.keys (results self)) ->
  Permutation (results self') (results self) ->
  snd (save_results self') = snd (save_results self).
Proof.
  intros Hnd Hp. unfold save_results. simpl.
  assert (Hv : Permutation (Dict.values (results self'))
                           (Dict.values (results self)))
    by (unfold Dict.values; now apply Permutation_map).
  f_equal.
  - unfold full_transcript. now rewrite (transcript_parts_perm Hnd Hp).
  - apply Permutation_list_sum. now apply Permutation_map.
  - now apply Permutation_length.
  - now apply filter_length_perm.
Qed.

Lemma save_results_order_independent_witness :
  NoDup (Dict.keys (results (rec session_end_to_end)))
  /\ Permutation three_results_shuffled
                 (results (rec session_end_to_end))
  /\ snd (save_results (set_results_of three_results_shuffled))
     = snd (save_results (rec session_end_to_end)).
Proof.
  assert (Hnd : NoDup (Dict.keys (results (rec session_end_to_end))))
    by (vm_compute; repeat constructor; simpl; intuition discriminate).
  assert (Hp : Permutation three_results_shuffled
                 (results (rec session_end_to_end))).
  { vm_compute. apply perm_swap. }
  split; [exact Hnd|]. split; [exact Hp|].
  exact (@save_results_order_independent (rec session_end_to_end)
           (set_results_of three_results_shuffled) Hnd Hp).
Defined.

Lemma flat_map_ext_in (A B : Type) (f g : A -> list B) (l : list A) :
  (forall x, In x l -> f x = g x) -> flat_map f l = flat_map g l.
Proof.
  induction l as [|a l IH]; intros H; simpl; [reflexivity|].
  rewrite (H a (or_introl eq_refl)), IH; [reflexivity|].
  intros x Hx. apply H. now right.
Qed.

Lemma parts_in_writing_order (results : Dict.dict Result) :
  NoDup (Dict.keys results) ->
  flat_map
    (fun i =>
       match Dict.get results i with
       | Some result => result_parts result
       | None => []
       end)
    (Dict.keys results)
  = flat_map (fun kv => result_parts (snd kv)) results.
Proof.
  induction results as [|[k r] d IH]; intros Hnd; [reflexivity|].
  inversion Hnd as [|? ? Hin Hnd']; subst.
  cbn [Dict.keys map fst flat_map snd Dict.get]. rewrite Nat.eqb_refl.
  f_equal. rewrite <- (IH Hnd'). apply flat_map_ext_in.
  intros x Hx. destruct (Nat.eqb_spec x k) as [->|_]; [contradiction|].
  reflexivity.
Qed.

Lemma parts_length (results : Dict.dict Result) :
  length (flat_map (fun kv => result_parts (snd kv)) results)
  = length results + paragraph_count results.
Proof.
  unfold paragraph_count, Dict.values.
  induction results as [|[k r] d IH]; [reflexivity|].
  cbn [flat_map map snd filter]. rewrite length_app, IH.
  unfold result_parts. destruct (res_type r); simpl; lia.
Qed.

(** X18: the transcript has one part per final result and one empty part
    more per result of type paragraph; and the paragraph count
    [save_results] writes is at most its segment count. *)
Theorem save_results_counts (self : LiveRecorder) :
  NoDup (Dict.keys (results self)) ->
  length (transcript_parts (results self))
  = entry_segments (snd (save_results self))
    + entry_paragraphs (snd (save_results self))
  /\ entry_paragraphs (snd (save_results self))
     <= entry_segments (snd (save_results self)).
Proof.
  intros Hnd. simpl. fold (paragraph_count (results self)). split.
  - unfold transcript_parts.
    rewrite (Permutation_length
               (Permutation_flat_map _ (sorted_perm (Dict.keys _)))).
    now rewrite parts_in_writing_order, parts_length.
  - unfold paragraph_count, Dict.values.
    rewrite <- (length_map snd (results self)). apply filter_length_le.
Qed.

Lemma save_results_counts_witness :
  NoDup (Dict.keys (results (rec session_end_to_end)))
  /\ length (transcript_parts (results (rec session_end_to_end)))
     = entry_segments (snd (save_results (rec session_end_to_end)))
       + entry_paragraphs (snd (save_results (rec session_end_to_end))).
Proof.
  assert (Hnd : NoDup (Dict.keys (results (rec session_end_to_end))))
    by (vm_compute; repeat constructor; simpl; intuition discriminate).
  split; [exact Hnd|].
  exact (proj1 (@save_results_counts (rec session_end_to_end) Hnd)).
Defined.

(** ** [format_time], continued *)


(** ** [show_live_preview] *)

(** X20: a preview that returns changes at most the draft of its own
    segment: the drafts of all other indices are as before; when the clip
    was extracted and whisper left a text file, the draft of the segment is
    the stripped content of that file, replacing any earlier draft; in
    every other case the drafts are unchanged, and nothing at all is
    printed when the clip is missing. *)
Theorem show_live_preview_drafts (current_draft drafts : Dict.dict str)
    (segment : Segment) (w : PreviewWorld) (out : list PreviewMessage) :
  show_live_preview current_draft segment w = Returned (drafts, out) ->
  (forall k,
     k <> seg_index segment ->
     Dict.get drafts k = Dict.get current_draft k)
  /\ (forall raw,
        preview_extraction w = ExtractFile ->
        preview_run w = TxtText raw ->
        Dict.get drafts (seg_index segment) = Some (strip raw))
  /\ ((forall raw, preview_run w <> TxtText raw) ->
      drafts = current_draft)
  /\ (preview_extraction w = ExtractNoFile ->
      drafts = current_draft /\ out = []).
Proof.
  unfold show_live_preview. intros H.
  destruct (preview_extraction w); [discriminate| |].
  - injection H as <- <-. repeat split; trivial; discriminate.
  - destruct (preview_run w) as [| |raw0].
    + injection H as <- <-. repeat split; trivial; discriminate.
    + injection H as <- <-. repeat split; trivial; discriminate.
    + injection H as <- <-. split; [|split; [|split]].
      * intros k Hk. now apply dict_get_set_other.
      * intros raw _ [= <-]. apply dict_get_set_same.
      * intros Hno. now contradiction (Hno raw0).
      * discriminate.
Qed.

Lemma show_live_preview_drafts_witness :
  show_live_preview [(0, lit "first word")] segment_1
    {| preview_extraction := ExtractFile;
       preview_run := TxtText (lit " then more ") |}
  = Returned
      ([(0, lit "first word"); (1, lit "then more")],
       [PrevTranscribing 2; PrevClear;
        PrevDraft (lit "00:03") (lit "then more")])
  /\ (forall k,
        k <> seg_index segment_1 ->
        Dict.get [(0, lit "first word"); (1, lit "then more")] k
        = Dict.get [(0, lit "first word")] k).
Proof.
  assert (H : show_live_preview [(0, lit "first word")] segment_1
                {| preview_extraction := ExtractFile;
                   preview_run := TxtText (lit " then more ") |}
              = Returned
                  ([(0, lit "first word"); (1, lit "then more")],
                   [PrevTranscribing 2; PrevClear;
                    PrevDraft (lit "00:03") (lit "then more")]))
    by (vm_compute; reflexivity).
  split; [exact H|].
  exact (proj1 (@show_live_preview_drafts _ _ _ _ _ H)).
Defined.

(** ** The session as a whole *)

(** X21: whatever the keyboard input of a session, before the worker has
    taken anything the queue holds exactly the segments created, in the
    order of their marks; their indices are 0, 1, 2, ...; the first content
    starts at 0 and each next content starts where the one before ended. *)
Theorem monitor_input_session (polls : list Poll) :
  let self := monitor_input (start_recording init) polls in
  transcription_queue self = segments self
  /\ previews self = segments self
  /\ map seg_index (segments self) = seq 0 (length (segments self))
  /\ (forall a l, segments self = a :: l -> seg_actual_start a = 0%Q)
  /\ (forall l1 a b l2,
        segments self = l1 ++ a :: b :: l2 ->
        seg_actual_start b = seg_end a).
Proof.
  intros self.
  destruct (monitor_input_reachable polls) as (s & Hr & E & Hw & Hc).
  fold self in E. rewrite <- E.
  destruct (reachable_ok Hr) as [Hq Ht _ _ _ _].
  destruct (reachable_pipeline Hr) as [[Hseg _ Ha Hf Hv] _ _ _].
  rewrite Hw, Hc in Ht. simpl in Ht. rewrite Ht in Hq. simpl in Hq.
  repeat split; trivial.
  - now symmetry.
  - exact (ok_indices Hseg).
Qed.

(** X22: when the text [transcribe_segment] returns for the segment in
    work is not empty, the round stores it under the segment's index with
    the segment's content start, end and type, prints it with the content
    start as MM:SS, and the worker is back at its loop condition. *)
Theorem successful_segment_recorded (s : System) (segment : Segment)
    (w : World) (text : str) :
  worker s = Transcribing segment ->
  snd (transcribe_segment (rec s) segment w) = Returned (Some text) ->
  text <> [] ->
  Dict.get (results (rec (worker_step w s))) (seg_index segment)
  = Some {| res_text := text;
            res_start := seg_actual_start segment;
            res_end := seg_end segment;
            res_type := seg_type segment |}
  /\ (exists out,
        console (rec (worker_step w s))
        = out ++ [MsgFinal (format_time (seg_actual_start segment)) text])
  /\ worker (worker_step w s) = AtWhile
  /\ completed (worker_step w s) = completed s ++ [segment].
Proof.
  intros Hw He Hne. unfold worker_step. rewrite Hw. simpl.
  unfold worker_process.
  destruct (transcribe_segment (rec s) segment w) as [self1 res] eqn:E.
  simpl in He. subst res.
  pose proof (transcribe_segment_frame (rec s) segment w) as (_ & _ & _ & Er & _).
  rewrite E in Er. simpl in Er.
  destruct text as [|c text]; [contradiction|]. simpl.
  split; [apply dict_get_set_same|].
  split; [now eexists|]. now split.
Qed.

Lemma successful_segment_recorded_witness :
  worker session_second_taken = Transcribing segment_1
  /\ snd (transcribe_segment (rec session_second_taken) segment_1
            (world_text (lit " then more")))
     = Returned (Some (lit "then more"))
  /\ lit "then more" <> []
  /\ Dict.get
       (results
          (rec (worker_step (world_text (lit " then more"))
                  session_second_taken))) 1
     = Some (result_at (lit "then more") 3 6 sentence).
Proof.
  assert (Hw : worker session_second_taken = Transcribing segment_1)
    by reflexivity.
  assert (He : snd (transcribe_segment (rec session_second_taken) segment_1
                      (world_text (lit " then more")))
               = Returned (Some (lit "then more"))) by reflexivity.
  assert (Hne : lit "then more" <> []) by discriminate.
  split; [exact Hw|]. split; [exact He|]. split; [exact Hne|].
  exact (proj1 (@successful_segment_recorded session_second_taken segment_1
                  (world_text (lit " then more")) (lit "then more")
                  Hw He Hne)).
Defined.

(** X23: there are never more final results than segments whose
    processing ended, nor than segments created. *)
Theorem results_at_most_segments (s : System) :
  reachable s ->
  length (results (rec s)) <= length (completed s)
  /\ length (completed s) <= length (segments (rec s)).
Proof.
  intros Hr.
  destruct (reachable_pipeline Hr) as [_ Hres Hk _].
  destruct (reachable_ok Hr) as [Hq Ht _ _ _ _].
  split.
  - rewrite <- (length_map fst (results (rec s))).
    rewrite <- (length_map seg_index (completed s)).
    apply NoDup_incl_length; [now apply StronglySorted_NoDup_lt|].
    intros k Hin. destruct (@dict_get_key _ _ _ Hin) as [r Hg].
    destruct (Hres k r Hg) as (segment & Hc & <- & _).
    now apply in_map.
  - rewrite Hq, Ht, !length_app. lia.
Qed.

Lemma results_at_most_segments_witness :
  reachable session_stopped
  /\ length (results (rec session_stopped))
     <= length (completed session_stopped)
  /\ length (completed session_stopped)
     <= length (segments (rec session_stopped)).
Proof.
  split; [exact session_stopped_reachable|].
  exact (@results_at_most_segments session_stopped
           session_stopped_reachable).
Defined.
